(** * remark-ascii-slugs: heading slugs of the blog's Markdown pipeline

    Shallow embedding of [src/lib/remark-ascii-slugs.mjs] together with the
    parts of its two dependencies that the plugin runs:
    - [github-slugger] (the [slug] function and the [Slugger] class with its
      [occurrences] table), and
    - [unist-util-visit] (the pre-order walk calling the visitor on every
      node whose type is "heading").

    JavaScript strings are sequences of UTF-16 code units; the embedding
    keeps them as lists of code units.  What the JavaScript runtime and the
    Unicode tables of [github-slugger] compute on arbitrary strings is a
    parameter of the development (class [Runtime]); an instance that is
    exact on strings of code units up to U+00FF is used to evaluate the
    plugin on concrete headings. *)

From Stdlib Require Import DecimalN.
From stdpp Require Import gmap strings list fin_maps.

Set Warnings "-clear-no-such-hyp".

(** ** JavaScript strings *)

(** A JavaScript string value is modelled by the [list N] of its UTF-16
    code units.  The two characters the slugger handles by name: *)
Definition HYPHEN : N := 45.
Definition SPACE : N := 32.

(** Code units of an ASCII literal of the source ([string] is Rocq's byte
    string; used for literals and for reading UTF-8 test inputs). *)
Definition byte_of (a : Ascii.ascii) : N := Ascii.N_of_ascii a.

(** UTF-8 decoding of a Rocq string literal into UTF-16 code units, for
    scalar values up to U+FFFF (one to three bytes); the headings used
    below are written this way.  Bytes that do not start such a sequence
    are passed through. *)
Fixpoint utf16 (s : string) : list N :=
  match s with
  | EmptyString => []
  | String a s1 =>
      let b0 := byte_of a in
      if (b0 <? 128)%N then b0 :: utf16 s1
      else match s1 with
           | String a1 s2 =>
               let b1 := byte_of a1 in
               if (b0 <? 224)%N
               then ((b0 - 192) * 64 + (b1 - 128))%N :: utf16 s2
               else match s2 with
                    | String a2 s3 =>
                        let b2 := byte_of a2 in
                        ((b0 - 224) * 4096 + (b1 - 128) * 64 + (b2 - 128))%N
                          :: utf16 s3
                    | EmptyString => [b0; b1]
                    end
           | EmptyString => [b0]
           end
  end.

(** [Number.prototype.toString] on a non-negative integer counter: its
    decimal digits, most significant first, no leading zero. *)
Fixpoint digits (d : Decimal.uint) : list N :=
  match d with
  | Decimal.Nil => []
  | Decimal.D0 r => 48%N :: digits r
  | Decimal.D1 r => 49%N :: digits r
  | Decimal.D2 r => 50%N :: digits r
  | Decimal.D3 r => 51%N :: digits r
  | Decimal.D4 r => 52%N :: digits r
  | Decimal.D5 r => 53%N :: digits r
  | Decimal.D6 r => 54%N :: digits r
  | Decimal.D7 r => 55%N :: digits r
  | Decimal.D8 r => 56%N :: digits r
  | Decimal.D9 r => 57%N :: digits r
  end.

Definition toString (n : N) : list N := digits (N.to_uint n).

Definition is_digit (c : N) : bool := (48 <=? c)%N && (c <=? 57)%N.

(** ** The runtime: what the plugin calls and does not define *)

(** [normalizeNFD s] is [s.normalize("NFD")], [toLowerCase s] is
    [s.toLowerCase()], and [regex_remove s] is [s.replace(regex, '')] for
    the character table [regex] of github-slugger ([regex.js]).  The laws
    are the properties of these functions that the development relies on:
    the empty string is a fixed point of the two string methods, replacing
    matches by the empty string leaves a subsequence, and lower-casing
    sends ASCII strings to ASCII strings. *)
Class Runtime := {
  normalizeNFD : list N → list N;
  toLowerCase : list N → list N;
  regex_remove : list N → list N;
  normalizeNFD_nil : normalizeNFD [] = [];
  toLowerCase_nil : toLowerCase [] = [];
  regex_remove_sublist s : sublist (regex_remove s) s;
  toLowerCase_ascii s :
    Forall (λ c, (c < 128)%N) s → Forall (λ c, (c < 128)%N) (toLowerCase s)
}.

(** ** remark-ascii-slugs.mjs: stripDiacritics *)

(** The character class of the regular expression of [stripDiacritics]:
    the code units U+0300 to U+036F. *)
Definition combining_mark (c : N) : bool := (768 <=? c)%N && (c <=? 879)%N.

(** [stripDiacritics(str)]: [str.normalize("NFD")] with every match of
    that class replaced by the empty string. *)
Definition stripDiacritics {R : Runtime} (str : list N) : list N :=
  filter (λ c, combining_mark c = false) (normalizeNFD str).

(** ** github-slugger *)

(** [value.replace(/ /g, '-')] *)
Definition replace_spaces (value : list N) : list N :=
  (λ c, if decide (c = SPACE) then HYPHEN else c) <$> value.

(** The exported function [slug(value, maintainCase)] with [maintainCase]
    false, on a string:
    [value.toLowerCase().replace(regex, '').replace(/ /g, '-')]. *)
Definition slug {R : Runtime} (value : list N) : list N :=
  replace_spaces (regex_remove (toLowerCase value)).

(** The [occurrences] table of a [Slugger]: a prototype-less object used
    as a map from emitted slugs to counters. *)
Abbreviation occurrences := (gmap (list N) N).

(** [originalSlug + '-' + n] *)
Definition suffixed (originalSlug : list N) (n : N) : list N :=
  originalSlug ++ HYPHEN :: toString n.

(** The loop and the final store of the method [Slugger.slug]:
<<
    while (own.call(self.occurrences, result)) {
      self.occurrences[originalSlug]++
      result = originalSlug + '-' + self.occurrences[originalSlug]
    }
    self.occurrences[result] = 0
    return result
>>
    [fuel] bounds the number of evaluations of the loop condition; [None]
    stands for a loop that has not finished within the fuel, and for the
    increment of an absent counter (not a number in JavaScript).
    [Slugger_slug_total] shows that neither happens. *)
Fixpoint slug_loop (fuel : nat) (originalSlug result : list N)
    (occ : occurrences) : option (list N * occurrences) :=
  match fuel with
  | O => None
  | S fuel' =>
      match occ !! result with
      | Some _ =>
          match occ !! originalSlug with
          | Some n =>
              slug_loop fuel' originalSlug (suffixed originalSlug (n + 1))
                (<[originalSlug := (n + 1)%N]> occ)
          | None => None
          end
      | None => Some (result, <[result := 0%N]> occ)
      end
  end.

(** Computations that use a [Slugger]: the [occurrences] table is threaded
    through, and a computation may fail to produce a result. *)
Definition M (A : Type) : Type := occurrences → option (A * occurrences).

Definition ret {A} (a : A) : M A := λ occ, Some (a, occ).

Definition bind {A B} (m : M A) (f : A → M B) : M B :=
  λ occ, match m occ with
         | Some (a, occ') => f a occ'
         | None => None
         end.

Notation "x <- m ;; k" := (bind m (λ x, k))
  (at level 100, m at next level, right associativity, only parsing).

(** [slugger.slug(value)]: the base slug, then the loop.  The condition is
    evaluated at most once per key of the table and once more. *)
Definition Slugger_slug {R : Runtime} (value : list N) : M (list N) :=
  λ occ, slug_loop (S (size occ)) (slug value) (slug value) occ.

(** A computation run on every element of an array, left to right. *)
Definition mapM {A B} (f : A → M B) : list A → M (list B) :=
  fix go (l : list A) : M (list B) :=
    match l with
    | [] => ret []
    | a :: r =>
        b <- f a ;;
        r1 <- go r ;;
        ret (b :: r1)
    end.

(** [new Slugger()]: [reset()] sets [occurrences] to an empty object. *)
Definition new_Slugger : occurrences := ∅.

(** ** The document tree (mdast) *)

(** [node.data]: the fields the plugin writes ([hProperties], a map of
    element attributes, and [id]) and the other entries of the bag. *)
Record node_data := NodeData {
  hProperties : option (gmap string (list N));
  data_id : option (list N);
  data_rest : gmap string (list N)
}.

(** A node: its [type] tag, its [value] (text and inlineCode nodes), its
    [children] (empty for a leaf), its optional [data] bag and the other
    fields ([depth], [url], [position], ...). *)
#[warnings="-register-all"]
Inductive node := Node {
  type : string;
  value : option (list N);
  children : list node;
  data : option node_data;
  fields : gmap string (list N)
}.

(** ** remark-ascii-slugs.mjs: the visitor *)

(** [(c) => c.type === "text" || c.type === "inlineCode"] *)
Definition text_or_inlineCode (c : node) : bool :=
  bool_decide (type c = "text") || bool_decide (type c = "inlineCode").

(** [.map((c) => c.value).join("")]: [join] reads a missing value as the
    empty string. *)
Definition join_values (cs : list node) : list N :=
  concat ((λ c, default [] (value c)) <$> cs).

(** The [text] of a heading node. *)
Definition heading_text (n : node) : list N :=
  join_values (filter (λ c, text_or_inlineCode c = true) (children n)).

(** The four statements after the slug is computed:
<<
    if (!node.data) node.data = {};
    if (!node.data.hProperties) node.data.hProperties = {};
    node.data.hProperties.id = slug;
    node.data.id = slug;
>> *)
Definition empty_data : node_data :=
  {| hProperties := None; data_id := None; data_rest := ∅ |}.

Definition write_slug (s : list N) (d : option node_data) : node_data :=
  let d1 := default empty_data d in
  let hp := default ∅ (hProperties d1) in
  {| hProperties := Some (<["id" := s]> hp);
     data_id := Some s;
     data_rest := data_rest d1 |}.

Definition set_data (n : node) (d : node_data) : node :=
  {| type := type n; value := value n; children := children n;
     data := Some d; fields := fields n |}.

(** The callback passed to [visit]. *)
Definition visitor {R : Runtime} (n : node) : M node :=
  s <- Slugger_slug (stripDiacritics (heading_text n)) ;;
  ret (set_data n (write_slug s (data n))).

(** ** unist-util-visit *)

(** [visit(tree, "heading", visitor)]: the node itself first, when its type
    is "heading", then its children from left to right, each with its own
    subtree.  The visitor returns nothing, so the walk always continues. *)
Fixpoint visit {R : Runtime} (n : node) : M node :=
  match n with
  | Node ty v cs d fs =>
      n1 <- (if decide (ty = "heading") then visitor n else ret n) ;;
      cs1 <- mapM visit cs ;;
      ret {| type := type n1; value := value n1; children := cs1;
             data := data n1; fields := fields n1 |}
  end.

(** [remarkAsciiSlugs()] returns the transformer [(tree) => { ... }]; the
    transformer changes the tree in place, the embedding returns the tree
    after the call. *)
Definition remarkAsciiSlugs {R : Runtime} (_ : ()) (tree : node) : option node :=
  fst <$> visit tree new_Slugger.

(** ** A runtime for Latin-1 strings

    The three runtime functions on strings whose code units are at most
    U+00FF, from the Unicode character database (canonical decompositions
    and lower-case mappings of U+0000..U+00FF) and from the table [regex]
    of github-slugger restricted to that range.  Code units above U+00FF
    are left as they are. *)
Module Latin1.

(** Canonical decompositions of the precomposed letters of the Latin-1
    Supplement, relative to U+00C0 (capital) and U+00E0 (small): offset,
    capital base letter, combining mark. *)
Definition decompositions : list (N * (N * N)) :=
  [ (0, (65, 768)); (1, (65, 769)); (2, (65, 770)); (3, (65, 771));
    (4, (65, 776)); (5, (65, 778)); (7, (67, 807));
    (8, (69, 768)); (9, (69, 769)); (10, (69, 770)); (11, (69, 776));
    (12, (73, 768)); (13, (73, 769)); (14, (73, 770)); (15, (73, 776));
    (17, (78, 771));
    (18, (79, 768)); (19, (79, 769)); (20, (79, 770)); (21, (79, 771));
    (22, (79, 776));
    (25, (85, 768)); (26, (85, 769)); (27, (85, 770)); (28, (85, 776));
    (29, (89, 769)) ]%N.

Fixpoint assoc (k : N) (l : list (N * (N * N))) : option (N * N) :=
  match l with
  | [] => None
  | (k', v) :: r => if decide (k = k') then Some v else assoc k r
  end.

(** NFD of one code unit. *)
Definition decompose (c : N) : list N :=
  if decide (c = 255)%N then [121; 776]%N
  else if (192 <=? c)%N && (c <=? 223)%N then
    match assoc (c - 192) decompositions with
    | Some (b, m) => [b; m]
    | None => [c]
    end
  else if (224 <=? c)%N && (c <=? 254)%N then
    match assoc (c - 224) decompositions with
    | Some (b, m) => [(b + 32)%N; m]
    | None => [c]
    end
  else [c].

Definition nfd (s : list N) : list N := s ≫= decompose.

(** Lower-case mapping of one code unit: A..Z, and U+00C0..U+00DE but
    the multiplication sign U+00D7. *)
Definition lower_unit (c : N) : N :=
  if (65 <=? c)%N && (c <=? 90)%N then (c + 32)%N
  else if (192 <=? c)%N && (c <=? 222)%N && negb (c =? 215)%N then (c + 32)%N
  else c.

Definition lower (s : list N) : list N := lower_unit <$> s.

(** The character class [regex] of github-slugger up to U+00FF:
    [\0-\x1F!-,\.\/:-@\[-\^`\{-\xA9\xAB-\xB4\xB6-\xB9\xBB-\xBF\xD7\xF7]. *)
Definition regex_class (c : N) : bool :=
  (c <=? 31)%N
  || ((33 <=? c)%N && (c <=? 44)%N)
  || (c =? 46)%N || (c =? 47)%N
  || ((58 <=? c)%N && (c <=? 64)%N)
  || ((91 <=? c)%N && (c <=? 94)%N)
  || (c =? 96)%N
  || ((123 <=? c)%N && (c <=? 169)%N)
  || ((171 <=? c)%N && (c <=? 180)%N)
  || ((182 <=? c)%N && (c <=? 185)%N)
  || ((187 <=? c)%N && (c <=? 191)%N)
  || (c =? 215)%N || (c =? 247)%N.

Definition remove (s : list N) : list N :=
  filter (λ c, regex_class c = false) s.

End Latin1.

(** ** Specification vocabulary *)

(** The heading nodes of a tree in the order [visit] reaches them. *)
Fixpoint headings (n : node) : list node :=
  match n with
  | Node ty v cs d fs =>
      (if decide (ty = "heading") then [n] else []) ++ flat_map headings cs
  end.

(** The texts of the headings of a document, in document order. *)
Definition heading_texts (tree : node) : list (list N) :=
  heading_text <$> headings tree.

(** The value handed to [slugger.slug] for each heading. *)
Definition slugger_inputs {R : Runtime} (tree : node) : list (list N) :=
  stripDiacritics <$> heading_texts tree.

(** The base slug of each heading. *)
Definition base_slugs {R : Runtime} (tree : node) : list (list N) :=
  slug <$> slugger_inputs tree.

(** [node.data.id] and [node.data.hProperties.id], when present. *)
Definition node_id (n : node) : option (list N) :=
  d ← data n; data_id d.

Definition node_hid (n : node) : option (list N) :=
  d ← data n; hp ← hProperties d; hp !! "id".

(** The slugs found on the headings of a tree, in document order. *)
Definition assigned (tree : node) : list (option (list N)) :=
  node_id <$> headings tree.

(** The tree without any [data] bag: node types, values, other fields and
    the order of the children. *)
Fixpoint skeleton (n : node) : node :=
  match n with
  | Node ty v cs d fs => Node ty v (map skeleton cs) None fs
  end.

(** [slug_written s d d']: the bag [d'] is the bag [d] with [s] stored at
    [id] and at [hProperties.id], both containers existing afterwards and
    every other entry of either as it was (absent containers count as
    empty). *)
Definition slug_written (s : list N) (d d' : option node_data) : Prop :=
  ∃ nd hp,
    d' = Some nd ∧
    data_id nd = Some s ∧
    hProperties nd = Some hp ∧
    hp !! "id" = Some s ∧
    (∀ k, k ≠ "id" → hp !! k = default ∅ (d ≫= hProperties) !! k) ∧
    data_rest nd = default ∅ (data_rest <$> d).

(** [slugged n ss n']: the tree [n'] is the tree [n] in which the headings
    have received, in document order, the slugs [ss], and nothing else
    differs: same node types, values, other fields, number and order of
    children, and the [data] of every node that is not a heading. *)
Inductive slugged : node → list (list N) → node → Prop :=
  | slugged_heading v cs cs' d d' fs s ss :
      slug_written s d d' →
      slugged_all cs ss cs' →
      slugged (Node "heading" v cs d fs) (s :: ss) (Node "heading" v cs' d' fs)
  | slugged_other ty v cs cs' d fs ss :
      ty ≠ "heading" →
      slugged_all cs ss cs' →
      slugged (Node ty v cs d fs) ss (Node ty v cs' d fs)
with slugged_all : list node → list (list N) → list node → Prop :=
  | slugged_nil : slugged_all [] [] []
  | slugged_cons c c' r r' ss1 ss2 :
      slugged c ss1 c' →
      slugged_all r ss2 r' →
      slugged_all (c :: r) (ss1 ++ ss2) (c' :: r').

(** The numbering of repeated base slugs as the documentation describes
    it: the first occurrence of a base slug unchanged, and the occurrence
    after [k] earlier ones, [k] at least 1, as the base slug followed by
    [-k].  [repeats seen b] counts the occurrences of [b] in [seen]. *)
Definition repeats (seen : list (list N)) (b : list N) : nat :=
  length (filter (λ x, x = b) seen).

Fixpoint spec_numbering_from (seen bs : list (list N)) : list (list N) :=
  match bs with
  | [] => []
  | b :: r =>
      (match repeats seen b with
       | O => b
       | S _ as k => suffixed b (N.of_nat k)
       end) :: spec_numbering_from (seen ++ [b]) r
  end.

(** No heading's base slug is [b-j] for a base slug [b] of the document
    and a [j] from 1 to the number of repeats of [b] (its occurrences but
    the first): the strings that the repeats of [b] are to receive are not
    base slugs of the document. *)
Definition collision_free (bs : list (list N)) : bool :=
  forallb
    (λ b, forallb (λ j, negb (bool_decide (suffixed b (N.of_nat j) ∈ bs)))
            (seq 1 (repeats bs b - 1)))
    bs.

(** The text of a heading as the documentation describes it: over the
    direct children in order, the literal value of each child of kind text
    or inline code, and nothing for a child of any other kind. *)
Fixpoint spec_text (cs : list node) : list N :=
  match cs with
  | [] => []
  | c :: r =>
      if decide (type c = "text" ∨ type c = "inlineCode")
      then default [] (value c) ++ spec_text r
      else spec_text r
  end.

(** The slugs the transformer leaves on a document, when it returns. *)
Definition slugs_of (R : Runtime) (tree : node) : option (list (option (list N))) :=
  assigned <$> remarkAsciiSlugs () tree.

(** What one call of [visit] does on a subtree, for any state of the
    slugger: it returns, the slugs are those of a run of the slugger over
    the headings of the subtree in document order, and the subtree
    changes by these slugs only. *)
Definition visit_spec {R : Runtime} (n : node) : Prop :=
  ∀ occ, ∃ n' ss occ',
    visit n occ = Some (n', occ') ∧
    mapM Slugger_slug (slugger_inputs n) occ = Some (ss, occ') ∧
    slugged n ss n' ∧
    assigned n' = Some <$> ss ∧
    node_hid <$> headings n' = Some <$> ss ∧
    skeleton n' = skeleton n.

(** The table after the headings [seen]: every base slug seen carries the
    number of its repeats, and every key is a base slug seen or one of the
    suffixed forms already given to its repeats. *)
Definition table_inv (seen : list (list N)) (occ : gmap (list N) N) : Prop :=
  (∀ b, b ∈ seen → occ !! b = Some (N.of_nat (repeats seen b) - 1)%N) ∧
  (∀ s, is_Some (occ !! s) →
     s ∈ seen ∨
     ∃ b k, b ∈ seen ∧ 1 ≤ k < repeats seen b ∧ s = suffixed b (N.of_nat k)).

(** ** Sample documents *)

Definition text_node (s : string) : node := Node "text" (Some (utf16 s)) [] None ∅.
Definition code_node (s : string) : node := Node "inlineCode" (Some (utf16 s)) [] None ∅.
Definition image_node : node := Node "image" None [] None {[ "url" := utf16 "/foto.png" ]}.
Definition link_node (label : string) : node :=
  Node "link" None [text_node label] None {[ "url" := utf16 "https://example.org" ]}.
Definition heading_node (cs : list node) : node := Node "heading" None cs None ∅.
Definition root_node (cs : list node) : node := Node "root" None cs None ∅.

(** A document with one heading per title, each with a single text child. *)
Definition document (titles : list string) : node :=
  root_node ((λ t, heading_node [text_node t]) <$> titles).

(** ** Decimal counters *)

Lemma digits_inj d1 d2 : digits d1 = digits d2 → d1 = d2.
Proof.
  revert d2. induction d1; intros [] Heq; simpl in Heq; try discriminate;
    try reflexivity; f_equal; apply IHd1; congruence.
Qed.

Lemma toString_inj n m : toString n = toString m → n = m.
Proof.
  unfold toString. intros Heq%digits_inj.
  rewrite <- (Unsigned.of_to n), <- (Unsigned.of_to m). by f_equal.
Qed.

Lemma digits_is_digit d : Forall (λ c, is_digit c = true) (digits d).
Proof. induction d; simpl; constructor; done. Qed.

Lemma toString_is_digit n : Forall (λ c, is_digit c = true) (toString n).
Proof. apply digits_is_digit. Qed.

Lemma toString_no_hyphen n : HYPHEN ∉ toString n.
Proof.
  intros Hin. pose proof (toString_is_digit n) as Hd.
  rewrite Forall_forall in Hd. by apply Hd in Hin.
Qed.

Lemma toString_ascii n : Forall (λ c, (c < 128)%N) (toString n).
Proof.
  eapply Forall_impl; [apply toString_is_digit|].
  intros c Hc. unfold is_digit in Hc. simpl in *.
  apply andb_true_iff in Hc as [_ Hc]. apply N.leb_le in Hc. lia.
Qed.

(** ** Suffixed slugs *)

Lemma suffixed_length b n : length b < length (suffixed b n).
Proof. unfold suffixed. rewrite length_app. simpl. lia. Qed.

Lemma suffixed_ne b n : suffixed b n ≠ b.
Proof. intros Heq. pose proof (suffixed_length b n). rewrite Heq in *. lia. Qed.

Lemma suffixed_nonempty b n : suffixed b n ≠ [].
Proof. unfold suffixed. by destruct b. Qed.

Lemma suffixed_inj b n m : suffixed b n = suffixed b m → n = m.
Proof.
  unfold suffixed. intros Heq%app_inv_head. apply toString_inj. congruence.
Qed.

(** Splitting at the last occurrence of a separator is unambiguous. *)
Lemma split_last_unique {A} (x : A) l1 l2 r1 r2 :
  x ∉ r1 → x ∉ r2 → l1 ++ x :: r1 = l2 ++ x :: r2 → l1 = l2 ∧ r1 = r2.
Proof.
  intros Hr1 Hr2. revert l2. induction l1 as [|a l1 IH]; intros [|b l2] Heq;
    simpl in Heq.
  - by injection Heq.
  - injection Heq as -> ->. exfalso. apply Hr1. set_solver.
  - injection Heq as -> <-. exfalso. apply Hr2. set_solver.
  - injection Heq as -> Heq. apply IH in Heq. by destruct Heq as [-> ->].
Qed.

Lemma suffixed_inj2 b1 b2 n m :
  suffixed b1 n = suffixed b2 m → b1 = b2 ∧ n = m.
Proof.
  unfold suffixed. intros Heq.
  apply split_last_unique in Heq as [-> Heq]; auto using toString_no_hyphen.
  split; [done|]. by apply toString_inj.
Qed.

(** ** The loop of [Slugger.slug] *)

(** A loop that runs out of fuel has found every string it tested in the
    table. *)
Lemma slug_loop_stuck f (b : list N) : ∀ r (occ : gmap (list N) N) k,
  occ !! b = Some k → slug_loop f b r occ = None →
  (f = 0 ∨ is_Some (occ !! r)) ∧
  ∀ j, 1 ≤ j < f → is_Some (occ !! suffixed b (k + N.of_nat j)).
Proof.
  induction f as [|f IH]; intros r occ k Hb Hnone.
  { split; [by left|]. intros j Hj. lia. }
  simpl in Hnone. destruct (occ !! r) as [x|] eqn:Hr; [|done].
  rewrite Hb in Hnone.
  apply IH with (k := (k + 1)%N) in Hnone; [|by rewrite lookup_insert_eq].
  destruct Hnone as [Hfirst Hrest]. split; [by right; eexists|].
  intros j Hj. destruct (decide (j = 1)) as [->|Hne].
  - destruct Hfirst as [->|Hs]; [lia|].
    rewrite lookup_insert_ne in Hs by (symmetry; apply suffixed_ne).
    by replace (k + N.of_nat 1)%N with (k + 1)%N by lia.
  - specialize (Hrest (j - 1) ltac:(lia)).
    rewrite lookup_insert_ne in Hrest by (symmetry; apply suffixed_ne).
    by replace (k + N.of_nat j)%N with (k + 1 + N.of_nat (j - 1))%N by lia.
Qed.

(** The loop always finishes: the strings it tests are pairwise distinct,
    so more tests than the table has keys cannot all succeed. *)
Lemma slug_loop_total (b : list N) (occ : gmap (list N) N) :
  is_Some (slug_loop (S (size occ)) b b occ).
Proof.
  destruct (slug_loop (S (size occ)) b b occ) as [res|] eqn:Hloop; [by eexists|].
  exfalso. destruct (occ !! b) as [k|] eqn:Hb; [|by simpl in Hloop; rewrite Hb in Hloop].
  destruct (slug_loop_stuck _ _ _ _ _ Hb Hloop) as [[?|Hin] Hall]; [done|].
  set (cand := λ j : nat, suffixed b (k + N.of_nat j)).
  set (l := b :: (cand <$> seq 1 (size occ))).
  assert (NoDup l) as Hnd.
  { constructor.
    - intros (j & Hj & _)%list_elem_of_fmap. symmetry in Hj.
      by apply suffixed_ne in Hj.
    - apply NoDup_fmap_2_strong; [|apply NoDup_seq].
      intros i j _ _ Hij%suffixed_inj. lia. }
  assert (list_to_set l ⊆ dom occ) as Hsub.
  { intros x [->|(j & -> & Hj%elem_of_seq)%list_elem_of_fmap]%elem_of_list_to_set%elem_of_cons;
      apply elem_of_dom; [done|]. apply Hall. lia. }
  apply subseteq_size in Hsub.
  rewrite size_list_to_set, size_dom in Hsub by done.
  subst l. simpl in Hsub. rewrite length_fmap, length_seq in Hsub. lia.
Qed.

(** What the loop returns: a string that was not a key, now stored as one,
    and either the string it started from or a suffixed form. *)
Lemma slug_loop_sound f (b : list N) : ∀ r (occ : gmap (list N) N) s occ',
  slug_loop f b r occ = Some (s, occ') →
  occ !! s = None ∧ dom occ' = {[s]} ∪ dom occ ∧
  (s = r ∨ ∃ n, (1 ≤ n)%N ∧ s = suffixed b n).
Proof.
  induction f as [|f IH]; intros r occ s occ' Hloop; [done|].
  simpl in Hloop. destruct (occ !! r) as [x|] eqn:Hr.
  - destruct (occ !! b) as [n|] eqn:Hb; [|done].
    apply IH in Hloop as (Hs & Hdom & Hform).
    apply lookup_insert_None in Hs as [Hs _]. split; [done|]. split.
    + rewrite Hdom, dom_insert_L.
      assert (b ∈ dom occ) by (apply elem_of_dom; eauto). set_solver.
    + right. destruct Hform as [->|Hform]; [|done]. exists (n + 1)%N.
      split; [lia|done].
  - injection Hloop as <- <-. rewrite dom_insert_L. auto.
Qed.

Section slugger.
Context `{Runtime}.

(** [slugger.slug] returns on every string and every table. *)
Lemma Slugger_slug_total (v : list N) (occ : gmap (list N) N) :
  is_Some (Slugger_slug v occ).
Proof. apply slug_loop_total. Qed.

Lemma Slugger_slug_sound (v : list N) (occ : gmap (list N) N) s occ' :
  Slugger_slug v occ = Some (s, occ') →
  occ !! s = None ∧ dom occ' = {[s]} ∪ dom occ ∧
  (s = slug v ∨ ∃ n, (1 ≤ n)%N ∧ s = suffixed (slug v) n).
Proof. apply slug_loop_sound. Qed.

(** A base slug that is not a key is returned unchanged. *)
Lemma Slugger_slug_fresh (v : list N) (occ : gmap (list N) N) :
  occ !! slug v = None →
  Slugger_slug v occ = Some (slug v, <[slug v := 0%N]> occ).
Proof. intros Hb. unfold Slugger_slug. simpl. by rewrite Hb. Qed.

(** A base slug with counter [k] whose next suffixed form is free. *)
Lemma Slugger_slug_repeat (v : list N) (occ : gmap (list N) N) k :
  occ !! slug v = Some k →
  occ !! suffixed (slug v) (k + 1) = None →
  Slugger_slug v occ =
    Some (suffixed (slug v) (k + 1),
          <[suffixed (slug v) (k + 1) := 0%N]> (<[slug v := (k + 1)%N]> occ)).
Proof.
  intros Hb Hfree. unfold Slugger_slug.
  destruct (size occ) as [|m] eqn:Hsize.
  { apply map_size_empty_inv in Hsize. subst occ. by rewrite lookup_empty in Hb. }
  simpl. rewrite Hb.
  rewrite lookup_insert_ne by (symmetry; apply suffixed_ne). by rewrite Hfree.
Qed.

(** A base slug that is a key is returned with a suffix. *)
Lemma Slugger_slug_taken (v : list N) (occ : gmap (list N) N) s occ' :
  Slugger_slug v occ = Some (s, occ') → is_Some (occ !! slug v) →
  ∃ n, (1 ≤ n)%N ∧ s = suffixed (slug v) n.
Proof.
  intros Hrun [k Hk]. apply Slugger_slug_sound in Hrun as (Hs & _ & [->|?]); [|done].
  congruence.
Qed.
End slugger.

(** ** Running the slugger over a sequence of headings *)

Lemma node_ind' (P : node → Prop) :
  (∀ ty v cs d fs, Forall P cs → P (Node ty v cs d fs)) → ∀ n, P n.
Proof.
  intros Hnode. fix IH 1. intros [ty v cs d fs]. apply Hnode.
  induction cs as [|c cs IHcs]; constructor; [apply IH|apply IHcs].
Qed.

Lemma fmap_flat_map {A B C} (f : B → C) (g : A → list B) l :
  f <$> flat_map g l = flat_map (λ x, f <$> g x) l.
Proof. induction l; simpl; [done|]. by rewrite fmap_app, IHl. Qed.

Lemma mapM_app {A B} (f : A → M B) l1 l2 occ :
  mapM f (l1 ++ l2) occ =
    match mapM f l1 occ with
    | Some (r1, occ1) =>
        match mapM f l2 occ1 with
        | Some (r2, occ2) => Some (r1 ++ r2, occ2)
        | None => None
        end
    | None => None
    end.
Proof.
  revert occ. induction l1 as [|a l1 IH]; intros occ; simpl.
  - unfold ret. by destruct (mapM f l2 occ) as [[]|].
  - unfold bind at 1 3. destruct (f a occ) as [[b occ1]|]; [|done].
    unfold bind, ret. rewrite IH. destruct (mapM f l1 occ1) as [[r1 occ2]|]; [|done].
    by destruct (mapM f l2 occ2) as [[]|].
Qed.

Lemma mapM_length {A B} (f : A → M B) l occ r occ' :
  mapM f l occ = Some (r, occ') → length r = length l.
Proof.
  revert occ r occ'. induction l as [|a l IH]; intros occ r occ' Hrun;
    simpl in Hrun.
  - by injection Hrun as <- _.
  - unfold bind in Hrun. destruct (f a occ) as [[b occ1]|]; [|done].
    destruct (mapM f l occ1) as [[r1 occ2]|] eqn:Hr; [|done].
    injection Hrun as <- _. simpl. f_equal. eauto.
Qed.

(** The run up to the heading at position [i], and the call made for it. *)
Lemma mapM_lookup {A B} (f : A → M B) l occ r occ' i a :
  mapM f l occ = Some (r, occ') → l !! i = Some a →
  ∃ occ1 occ2 b,
    mapM f (take i l) occ = Some (take i r, occ1) ∧
    f a occ1 = Some (b, occ2) ∧ r !! i = Some b.
Proof.
  revert occ r occ' i. induction l as [|x l IH]; intros occ r occ' i Hrun Hi;
    [done|].
  simpl in Hrun. unfold bind in Hrun.
  destruct (f x occ) as [[b occ1]|] eqn:Hx; [|done].
  destruct (mapM f l occ1) as [[r1 occ2]|] eqn:Hr; [|done].
  injection Hrun as <- <-. destruct i as [|i]; simpl in *.
  - injection Hi as ->. exists occ, occ1, b. by rewrite Hx.
  - destruct (IH _ _ _ _ Hr Hi) as (o1 & o2 & b' & Hpre & Hcall & Hb).
    exists o1, o2, b'. unfold bind. by rewrite Hx, Hpre.
Qed.

Section run.
Context `{Runtime}.

Lemma run_total (vs : list (list N)) (occ : gmap (list N) N) :
  is_Some (mapM Slugger_slug vs occ).
Proof.
  revert occ. induction vs as [|v vs IH]; intros occ; simpl; [by eexists|].
  unfold bind. destruct (Slugger_slug_total v occ) as [[s occ1] ->].
  destruct (IH occ1) as [[ss occ2] ->]. by eexists.
Qed.

(** The slugs returned in one run are new keys, pairwise distinct, and
    are the keys the run adds to the table. *)
Lemma run_keys (vs : list (list N)) : ∀ (occ : gmap (list N) N) ss occ',
  mapM Slugger_slug vs occ = Some (ss, occ') →
  NoDup ss ∧ (∀ s, s ∈ ss → occ !! s = None) ∧
  dom occ' = list_to_set ss ∪ dom occ.
Proof.
  induction vs as [|v vs IH]; intros occ ss occ' Hrun; simpl in Hrun.
  { injection Hrun as <- <-. split; [constructor|]. set_solver. }
  unfold bind in Hrun. destruct (Slugger_slug v occ) as [[s occ1]|] eqn:Hs; [|done].
  destruct (mapM Slugger_slug vs occ1) as [[ss1 occ2]|] eqn:Hr; [|done].
  injection Hrun as <- <-.
  apply Slugger_slug_sound in Hs as (Hnew & Hdom1 & _).
  apply IH in Hr as (Hnd & Hfresh & Hdom2).
  assert (∀ x, x ∈ ss1 → x ∉ dom occ1) as Hout.
  { intros x Hx%Hfresh. by apply not_elem_of_dom. }
  split; [|split].
  - constructor; [|done]. intros Hin%Hout. set_solver.
  - intros x [->|Hx]%elem_of_cons; [done|]. apply not_elem_of_dom.
    apply Hout in Hx. set_solver.
  - rewrite Hdom2, Hdom1. set_solver.
Qed.

(** The heading at position [i] of a document: its slug is new, it is the
    base slug when no earlier heading of the document received that
    string, and the base slug with a suffix [-n], [n] at least 1,
    otherwise. *)
Lemma run_at (vs ss : list (list N)) occ' i v s :
  mapM Slugger_slug vs new_Slugger = Some (ss, occ') →
  vs !! i = Some v → ss !! i = Some s →
  (s ∉ take i ss) ∧
  (slug v ∉ take i ss → s = slug v) ∧
  (slug v ∈ take i ss → ∃ n, (1 ≤ n)%N ∧ s = suffixed (slug v) n) ∧
  (s = slug v ∨ ∃ n, (1 ≤ n)%N ∧ s = suffixed (slug v) n).
Proof.
  intros Hrun Hv Hs.
  destruct (mapM_lookup _ _ _ _ _ _ _ Hrun Hv) as (occ1 & occ2 & s' & Hpre & Hcall & Hs').
  assert (s' = s) as -> by congruence.
  apply run_keys in Hpre as (_ & _ & Hdom).
  unfold new_Slugger in Hdom. rewrite dom_empty_L, (right_id_L ∅ (∪)) in Hdom.
  assert (∀ x, x ∈ take i ss ↔ is_Some (occ1 !! x)) as Hkeys.
  { intros x. rewrite <- elem_of_dom, Hdom. set_solver. }
  pose proof (Slugger_slug_sound _ _ _ _ Hcall) as (Hnew & _ & Hform).
  split; [|split; [|split]].
  - rewrite Hkeys, Hnew. by intros [].
  - rewrite Hkeys. intros Hfree. rewrite <- eq_None_not_Some in Hfree.
    rewrite (Slugger_slug_fresh _ _ Hfree) in Hcall. congruence.
  - rewrite Hkeys. intros Htaken. by eapply Slugger_slug_taken.
  - done.
Qed.
End run.

(** ** The walk over the tree *)

Lemma write_slug_written s d : slug_written s d (Some (write_slug s d)).
Proof.
  unfold slug_written, write_slug. eexists _, _. split; [done|]. simpl.
  split; [done|]. split; [done|]. split; [by rewrite lookup_insert_eq|].
  split.
  - intros k Hk. rewrite lookup_insert_ne by done. by destruct d as [[[]]|].
  - by destruct d.
Qed.

Section walk.
Context `{Runtime}.

Lemma slugger_inputs_node ty v cs d fs :
  slugger_inputs (Node ty v cs d fs) =
    (if decide (ty = "heading")
     then [stripDiacritics (heading_text (Node ty v cs d fs))] else [])
    ++ flat_map slugger_inputs cs.
Proof.
  unfold slugger_inputs, heading_texts. simpl.
  rewrite !fmap_app, !fmap_flat_map. by destruct (decide _).
Qed.

Lemma visit_children cs :
  Forall visit_spec cs →
  ∀ occ, ∃ cs' ss occ',
    mapM visit cs occ = Some (cs', occ') ∧
    mapM Slugger_slug (flat_map slugger_inputs cs) occ = Some (ss, occ') ∧
    slugged_all cs ss cs' ∧
    node_id <$> flat_map headings cs' = Some <$> ss ∧
    node_hid <$> flat_map headings cs' = Some <$> ss ∧
    map skeleton cs' = map skeleton cs.
Proof.
  induction 1 as [|c r Hc _ IH]; intros occ.
  { exists [], [], occ. repeat split; constructor. }
  destruct (Hc occ) as (c' & ss1 & occ1 & Hv & Hrun1 & Hsl & Hid & Hhid & Hsk).
  destruct (IH occ1) as (r' & ss2 & occ2 & Hvs & Hrun2 & Hsls & Hids & Hhids & Hsks).
  exists (c' :: r'), (ss1 ++ ss2), occ2. split; [|split; [|split; [|split; [|split]]]].
  - simpl. unfold bind, ret. by rewrite Hv, Hvs.
  - simpl. unfold slugger_inputs in *. by rewrite mapM_app, Hrun1, Hrun2.
  - by constructor.
  - simpl. unfold assigned in Hid. by rewrite !fmap_app, Hid, Hids.
  - simpl. by rewrite !fmap_app, Hhid, Hhids.
  - simpl. by rewrite Hsk, Hsks.
Qed.

Lemma visit_correct n : visit_spec n.
Proof.
  induction n as [ty v cs d fs IHcs] using node_ind'. intros occ.
  rewrite slugger_inputs_node. simpl visit. unfold bind at 1.
  destruct (decide (ty = "heading")) as [->|Hty].
  - unfold visitor, bind, ret.
    set (text := stripDiacritics (heading_text (Node "heading" v cs d fs))).
    destruct (Slugger_slug_total text occ) as [[s occ1] Hs]. rewrite Hs.
    destruct (visit_children cs IHcs occ1)
      as (cs' & ss & occ2 & Hvs & Hrun & Hsl & Hids & Hhids & Hsk).
    simpl. rewrite Hvs. eexists _, (s :: ss), occ2.
    split; [done|]. split; [|split; [|split; [|split]]].
    + simpl. unfold bind, ret. by rewrite Hs, Hrun.
    + constructor; [apply write_slug_written|done].
    + unfold assigned. simpl. f_equal. exact Hids.
    + simpl. f_equal; [|exact Hhids]. unfold node_hid. simpl.
      by rewrite lookup_insert_eq.
    + simpl. by rewrite Hsk.
  - unfold ret at 1.
    destruct (visit_children cs IHcs occ)
      as (cs' & ss & occ2 & Hvs & Hrun & Hsl & Hids & Hhids & Hsk).
    unfold bind, ret. simpl. rewrite Hvs. eexists _, ss, occ2.
    split; [done|]. split; [done|]. split; [|split; [|split]].
    + by constructor.
    + unfold assigned. simpl. destruct (decide (ty = "heading")); [done|].
      exact Hids.
    + simpl. destruct (decide (ty = "heading")); [done|]. exact Hhids.
    + simpl. by rewrite Hsk.
Qed.

(** The transformer on a whole document. *)
Lemma remarkAsciiSlugs_correct tree :
  ∃ tree' ss occ',
    remarkAsciiSlugs () tree = Some tree' ∧
    mapM Slugger_slug (slugger_inputs tree) new_Slugger = Some (ss, occ') ∧
    slugged tree ss tree' ∧
    assigned tree' = Some <$> ss ∧
    node_hid <$> headings tree' = Some <$> ss ∧
    skeleton tree' = skeleton tree.
Proof.
  destruct (visit_correct tree new_Slugger)
    as (tree' & ss & occ' & Hv & Hrest).
  exists tree', ss, occ'. split; [|done]. unfold remarkAsciiSlugs. by rewrite Hv.
Qed.
End walk.

(** ** The Latin-1 runtime *)

Lemma latin1_remove_sublist s : sublist (Latin1.remove s) s.
Proof. apply sublist_filter. Qed.

Lemma latin1_lower_ascii s :
  Forall (λ c, (c < 128)%N) s → Forall (λ c, (c < 128)%N) (Latin1.lower s).
Proof.
  intros Hs. unfold Latin1.lower. rewrite Forall_fmap.
  eapply Forall_impl; [exact Hs|]. intros c Hc. simpl in *.
  unfold Latin1.lower_unit.
  destruct (N.leb_spec 65 c), (N.leb_spec c 90), (N.leb_spec 192 c);
    simpl; lia.
Qed.

Definition latin1 : Runtime := {|
  normalizeNFD := Latin1.nfd;
  toLowerCase := Latin1.lower;
  regex_remove := Latin1.remove;
  normalizeNFD_nil := eq_refl;
  toLowerCase_nil := eq_refl;
  regex_remove_sublist := latin1_remove_sublist;
  toLowerCase_ascii := latin1_lower_ascii
|}.

(** ** The transformer on sample documents *)

(** Both places of a heading receive the slug, and nothing else changes. *)
Example secao_1_tree :
  remarkAsciiSlugs (R := latin1) () (document ["Seção 1"]) =
    Some (root_node
            [Node "heading" None [text_node "Seção 1"]
               (Some {| hProperties := Some {[ "id" := utf16 "secao-1" ]};
                        data_id := Some (utf16 "secao-1");
                        data_rest := ∅ |}) ∅]).
Proof. vm_compute; reflexivity. Qed.

(** Text and inline code count, the label of a link does not. *)
Example inline_code_and_link :
  slugs_of latin1
    (root_node [heading_node [text_node "Usando "; code_node "git";
                              link_node "documentação"]])
    = Some [Some (utf16 "usando-git")].
Proof. vm_compute; reflexivity. Qed.

(** * The claims *)

(** C1. After one invocation of the transformer on any document tree, the
    slugs assigned to the heading nodes of that tree are pairwise distinct:
    the transformer returns, every heading carries a slug, and no slug
    occurs twice. *)
Theorem C1_slugs_pairwise_distinct (R : Runtime) (tree : node) :
  ∃ tree' ss,
    remarkAsciiSlugs () tree = Some tree' ∧
    assigned tree' = Some <$> ss ∧
    NoDup ss.
Proof.
  destruct (remarkAsciiSlugs_correct tree)
    as (tree' & ss & occ' & Hrun & Hss & _ & Hids & _).
  exists tree', ss. split; [done|]. split; [done|].
  by apply run_keys in Hss as [? _].
Qed.

Section heading_at.
Context `{Runtime}.

Lemma stripDiacritics_nil : stripDiacritics [] = [].
Proof. unfold stripDiacritics. by rewrite normalizeNFD_nil. Qed.

Lemma slug_nil : slug [] = [].
Proof.
  unfold slug. rewrite toLowerCase_nil.
  pose proof (regex_remove_sublist []) as Hsub.
  apply sublist_nil_r in Hsub. by rewrite Hsub.
Qed.

(** The heading at position [i] of a document, with text [text]. *)
Lemma slug_at tree i text :
  heading_texts tree !! i = Some text →
  ∃ tree' ss s,
    remarkAsciiSlugs () tree = Some tree' ∧
    assigned tree' = Some <$> ss ∧
    ss !! i = Some s ∧
    (s ∉ take i ss) ∧
    (slug (stripDiacritics text) ∉ take i ss → s = slug (stripDiacritics text)) ∧
    (slug (stripDiacritics text) ∈ take i ss →
       ∃ n, (1 ≤ n)%N ∧ s = suffixed (slug (stripDiacritics text)) n) ∧
    (s = slug (stripDiacritics text) ∨
       ∃ n, (1 ≤ n)%N ∧ s = suffixed (slug (stripDiacritics text)) n).
Proof.
  intros Htext.
  destruct (remarkAsciiSlugs_correct tree)
    as (tree' & ss & occ' & Hrun & Hss & _ & Hids & _).
  assert (slugger_inputs tree !! i = Some (stripDiacritics text)) as Hin.
  { unfold slugger_inputs. by rewrite list_lookup_fmap, Htext. }
  destruct (lookup_lt_is_Some_2 ss i) as [s Hs].
  { rewrite (mapM_length _ _ _ _ _ Hss). by eapply lookup_lt_Some. }
  exists tree', ss, s. split; [done|]. split; [done|]. split; [done|].
  by eapply run_at.
Qed.
End heading_at.

(** C2 (as stated, refuted). A heading whose only child is an image has the
    empty text, and it is assigned the empty string as its slug. *)
Lemma C2_empty_heading_gets_empty_slug :
  heading_texts (root_node [heading_node [image_node]]) = [[]] ∧
  slugs_of latin1 (root_node [heading_node [image_node]]) = Some [Some []].
Proof. split; vm_compute; reflexivity. Qed.

(** C2 (amended). A heading whose extracted text is empty has the empty
    base slug, and there is no fallback: it is assigned the empty string
    when no earlier heading of the document was assigned the empty string,
    and otherwise a hyphen followed by a counter that is at least 1. *)
Theorem C2_empty_text_slug (R : Runtime) (tree : node) (i : nat) :
  heading_texts tree !! i = Some [] →
  ∃ tree' ss s,
    remarkAsciiSlugs () tree = Some tree' ∧
    assigned tree' = Some <$> ss ∧
    ss !! i = Some s ∧
    ([] ∉ take i ss → s = []) ∧
    ([] ∈ take i ss → ∃ n, (1 ≤ n)%N ∧ s = HYPHEN :: toString n).
Proof.
  intros Htext. destruct (slug_at tree i [] Htext)
    as (tree' & ss & s & Hrun & Hids & Hs & _ & Hfirst & Hnext & _).
  rewrite stripDiacritics_nil, slug_nil in Hfirst, Hnext.
  by exists tree', ss, s.
Qed.

(** The second of two headings without text: an image-only heading, then
    a heading without children. *)
Lemma C2_empty_text_slug_witness :
  heading_texts (root_node [heading_node [image_node]; heading_node []]) !! 1
    = Some [] ∧
  ∃ tree' ss s,
    remarkAsciiSlugs (R := latin1) ()
      (root_node [heading_node [image_node]; heading_node []]) = Some tree' ∧
    assigned tree' = Some <$> ss ∧
    ss !! 1 = Some s ∧
    ([] ∉ take 1 ss → s = []) ∧
    ([] ∈ take 1 ss → ∃ n, (1 ≤ n)%N ∧ s = HYPHEN :: toString n).
Proof.
  split; [reflexivity|].
  apply (C2_empty_text_slug latin1
           (root_node [heading_node [image_node]; heading_node []]) 1).
  reflexivity.
Defined.


(** ** Numbering of repeated base slugs *)

Lemma repeats_app seen b x :
  repeats (seen ++ [x]) b = repeats seen b + (if decide (x = b) then 1 else 0).
Proof.
  unfold repeats. rewrite filter_app, length_app. f_equal.
  rewrite filter_cons, filter_nil. by destruct (decide (x = b)).
Qed.

Lemma repeats_elem_of seen b : b ∈ seen ↔ 0 < repeats seen b.
Proof.
  unfold repeats. induction seen as [|x seen IH].
  - split; [by intros ?%elem_of_nil|]. cbn. lia.
  - rewrite filter_cons, elem_of_cons. destruct (decide (x = b)) as [->|Hne];
      simpl; [split; [lia|by left]|].
    rewrite <- IH. naive_solver.
Qed.

Lemma table_inv_empty : table_inv [] ∅.
Proof.
  split; [by intros b ?%elem_of_nil|].
  intros s [x Hx]. by rewrite lookup_empty in Hx.
Qed.

Lemma repeats_concat (l1 l2 : list (list N)) (b : list N) :
  repeats (l1 ++ l2) b = repeats l1 b + repeats l2 b.
Proof. unfold repeats. by rewrite filter_app, length_app. Qed.

Lemma repeats_cons_same (l : list (list N)) (b : list N) :
  repeats (b :: l) b = S (repeats l b).
Proof. unfold repeats. rewrite filter_cons. by rewrite decide_True. Qed.

Lemma collision_free_spec (bs : list (list N)) :
  collision_free bs = true ↔
  ∀ b j, 1 ≤ j < repeats bs b → suffixed b (N.of_nat j) ∉ bs.
Proof.
  unfold collision_free. rewrite forallb_forall. split.
  - intros Hall b j Hj.
    assert (b ∈ bs) as Hb by (apply repeats_elem_of; lia).
    apply list_elem_of_In, Hall in Hb. rewrite forallb_forall in Hb.
    specialize (Hb j). rewrite negb_true_iff, bool_decide_eq_false in Hb.
    apply Hb, list_elem_of_In, elem_of_seq. lia.
  - intros Hfree b _. apply forallb_forall.
    intros j Hj%list_elem_of_In%elem_of_seq.
    rewrite negb_true_iff, bool_decide_eq_false. apply Hfree. lia.
Qed.

(** The occurrence of [b] that comes after [j] earlier ones. *)
Lemma repeats_position (bs : list (list N)) (b : list N) (j : nat) :
  j < repeats bs b → ∃ q, bs !! q = Some b ∧ repeats (take q bs) b = j.
Proof.
  induction bs as [|x l IH] using rev_ind; [unfold repeats; simpl; lia|].
  rewrite repeats_app. intros Hj.
  destruct (decide (j < repeats l b)) as [Hlt|Hge].
  - destruct (IH Hlt) as (q & Hq & Hrep). exists q.
    pose proof (lookup_lt_Some _ _ _ Hq) as Hlen.
    by rewrite lookup_app_l, take_app_le by lia.
  - destruct (decide (x = b)) as [->|Hne]; [|lia].
    exists (length l). rewrite take_app_length. split; [|lia].
    by apply list_lookup_middle.
Qed.

Section numbering.
Context {R : Runtime}.
Variable all : list (list N).
Hypothesis Hfree : ∀ b j, 1 ≤ j < repeats all b → suffixed b (N.of_nat j) ∉ all.

Lemma table_inv_step (seen rest : list (list N)) (occ : gmap (list N) N)
    (v : list N) :
  all = seen ++ slug v :: rest → table_inv seen occ →
  ∃ occ',
    Slugger_slug v occ =
      Some (match repeats seen (slug v) with
            | O => slug v
            | S _ as k => suffixed (slug v) (N.of_nat k)
            end, occ') ∧
    table_inv (seen ++ [slug v]) occ'.
Proof.
  intros Hall [Hcnt Hkeys]. set (b := slug v) in *.
  assert (∀ x, x ∈ seen → x ∈ all) as Hseen by (intros x Hx; set_solver).
  assert (b ∈ all) as Hv by set_solver.
  assert (∀ x, repeats seen x ≤ repeats all x) as Hmono.
  { intros x. rewrite Hall, repeats_concat. lia. }
  assert (repeats seen b < repeats all b) as Hmore.
  { rewrite Hall, repeats_concat, repeats_cons_same. lia. }
  destruct (occ !! b) as [k|] eqn:Hb.
  - assert (b ∈ seen) as Hin.
    { destruct (Hkeys b) as [?|(b' & k' & Hb' & Hk' & Heq)]; [by eexists|done|].
      exfalso. apply (Hfree b' k'); [specialize (Hmono b'); lia|].
      by rewrite <- Heq. }
    pose proof (Hcnt b Hin) as Hk. rewrite Hb in Hk. injection Hk as ->.
    pose proof (proj1 (repeats_elem_of seen b) Hin) as Hpos.
    remember (repeats seen b) as c eqn:Hcdef.
    assert ((N.of_nat c - 1 + 1)%N = N.of_nat c) as Hc by lia.
    assert (suffixed b (N.of_nat c) ∉ all) as Hout by (apply Hfree; lia).
    assert (occ !! suffixed b (N.of_nat c) = None) as Hnew.
    { apply eq_None_not_Some. intros Hsome.
      destruct (Hkeys _ Hsome) as [Hin2|(b' & k' & Hb' & Hk' & Heq)].
      - by apply Hout, Hseen.
      - apply suffixed_inj2 in Heq as [<- Heq]. lia. }
    pose proof (Slugger_slug_repeat v occ _ Hb) as Hrun. fold b in Hrun.
    rewrite Hc in Hrun. rewrite (Hrun Hnew).
    eexists. split; [destruct c; [lia|done]|]. split.
    + intros x Hx. rewrite repeats_app. destruct (decide (b = x)) as [<-|Hne].
      * rewrite lookup_insert_ne by apply suffixed_ne.
        rewrite lookup_insert_eq. f_equal. lia.
      * apply elem_of_app in Hx as [Hx|Hx%list_elem_of_singleton]; [|done].
        rewrite lookup_insert_ne.
        2:{ intros Heq. apply Hout. rewrite Heq. by apply Hseen. }
        rewrite lookup_insert_ne by done. rewrite Hcnt by done.
        f_equal. lia.
    + intros s Hs. destruct (decide (s = suffixed b (N.of_nat c))) as [->|Hne1].
      { right. exists b, c. split; [set_solver|]. split; [|done].
        rewrite repeats_app. destruct (decide (b = b)); [lia|done]. }
      rewrite lookup_insert_ne in Hs by done.
      destruct (decide (s = b)) as [->|Hne2]; [left; set_solver|].
      rewrite lookup_insert_ne in Hs by done.
      destruct (Hkeys _ Hs) as [?|(b' & k' & Hb' & Hk' & Heq)]; [left; set_solver|].
      right. exists b', k'. split; [set_solver|]. split; [|done].
      rewrite repeats_app. lia.
  - assert (repeats seen b = 0) as Hzero.
    { destruct (decide (0 < repeats seen b)) as [Hpos%repeats_elem_of|]; [|lia].
      apply Hcnt in Hpos. congruence. }
    pose proof (Slugger_slug_fresh v occ Hb) as Hrun. fold b in Hrun.
    rewrite Hrun, Hzero. eexists. split; [done|]. split.
    + intros x Hx. rewrite repeats_app. destruct (decide (b = x)) as [<-|Hne].
      * rewrite lookup_insert_eq, Hzero. done.
      * apply elem_of_app in Hx as [Hx|Hx%list_elem_of_singleton]; [|done].
        rewrite lookup_insert_ne by done. rewrite Hcnt by done. f_equal. lia.
    + intros s Hs. destruct (decide (s = b)) as [->|Hne]; [left; set_solver|].
      rewrite lookup_insert_ne in Hs by done.
      destruct (Hkeys _ Hs) as [?|(b' & k' & Hb' & Hk' & Heq)]; [left; set_solver|].
      right. exists b', k'. split; [set_solver|]. split; [|done].
      rewrite repeats_app. lia.
Qed.

Lemma run_numbering (vs : list (list N)) :
  ∀ (seen : list (list N)) (occ : gmap (list N) N),
  all = seen ++ (slug <$> vs) → table_inv seen occ →
  ∃ occ',
    mapM Slugger_slug vs occ = Some (spec_numbering_from seen (slug <$> vs), occ').
Proof.
  induction vs as [|v vs IH]; intros seen occ Hall Hinv.
  { eexists. reflexivity. }
  rewrite fmap_cons in Hall.
  destruct (table_inv_step seen _ occ v Hall Hinv) as (occ1 & Hv & Hinv1).
  destruct (IH (seen ++ [slug v]) occ1) as (occ2 & Hrun); [|done|].
  { by rewrite <- app_assoc. }
  exists occ2. simpl. unfold bind, ret. by rewrite Hv, Hrun.
Qed.
End numbering.

Lemma spec_numbering_from_lookup (bs : list (list N)) :
  ∀ (seen : list (list N)) i b,
    bs !! i = Some b →
    spec_numbering_from seen bs !! i =
      Some (match repeats (seen ++ take i bs) b with
            | O => b
            | S _ as k => suffixed b (N.of_nat k)
            end).
Proof.
  induction bs as [|a bs IH]; intros seen i b Hi; [done|].
  destruct i as [|i]; simpl in *.
  - injection Hi as ->. by rewrite app_nil_r.
  - rewrite (IH _ _ _ Hi). by rewrite <- app_assoc.
Qed.

Lemma spec_numbering_from_length (bs seen : list (list N)) :
  length (spec_numbering_from seen bs) = length bs.
Proof. revert seen. induction bs; intros seen; simpl; [done|]. by rewrite IHbs. Qed.

(** C3 (as stated, refuted). In a document with the headings "Passo",
    "Passo" and "Passo 1", the third heading is the first one with the base
    slug passo-1, and it is not assigned that base slug: passo-1 went to
    the second heading, and the third gets passo-1-1.  With the headings
    "Passo 1", "Passo", "Passo" the first repeat of passo is numbered 2. *)
Lemma C3_first_occurrence_suffixed :
  base_slugs (R := latin1) (document ["Passo"; "Passo"; "Passo 1"])
    = [utf16 "passo"; utf16 "passo"; utf16 "passo-1"] ∧
  slugs_of latin1 (document ["Passo"; "Passo"; "Passo 1"])
    = Some [Some (utf16 "passo"); Some (utf16 "passo-1");
            Some (utf16 "passo-1-1")] ∧
  slugs_of latin1 (document ["Passo 1"; "Passo"; "Passo"])
    = Some [Some (utf16 "passo-1"); Some (utf16 "passo");
            Some (utf16 "passo-2")].
Proof. repeat split; vm_compute; reflexivity. Qed.

(** C3 (amended). In every document a heading is assigned its base slug
    when that string has not yet been assigned in the document, and
    otherwise the base slug followed by [-n] for an [n] of at least 1.
    The numbering of the claim (the first heading with a given base slug
    gets it unchanged, the heading after [k] earlier headings with the
    same base slug, [k] at least 1, gets the base slug followed by [-k])
    holds for all headings of a document exactly when no heading's base
    slug is [b-j] for a base slug [b] of the document and a [j] from 1 to
    the number of repeats of [b]. *)
Theorem C3_numbering_of_repeats (R : Runtime) (tree : node) :
  ∃ tree' ss,
    remarkAsciiSlugs () tree = Some tree' ∧
    assigned tree' = Some <$> ss ∧
    length ss = length (base_slugs tree) ∧
    (collision_free (base_slugs tree) = true ↔
     ∀ i b, base_slugs tree !! i = Some b →
       ss !! i = Some (match repeats (take i (base_slugs tree)) b with
                       | O => b
                       | S _ as k => suffixed b (N.of_nat k)
                       end)) ∧
    (∀ i b s, base_slugs tree !! i = Some b → ss !! i = Some s →
       (s ∉ take i ss) ∧
       (b ∉ take i ss → s = b) ∧
       (b ∈ take i ss → ∃ n, (1 ≤ n)%N ∧ s = suffixed b n)).
Proof.
  destruct (remarkAsciiSlugs_correct tree)
    as (tree' & ss & occ' & Hrun & Hss & _ & Hids & _).
  exists tree', ss. split; [done|]. split; [done|].
  assert (length ss = length (base_slugs tree)) as Hlen.
  { unfold base_slugs. by rewrite length_fmap, (mapM_length _ _ _ _ _ Hss). }
  split; [done|]. split; [split|].
  - intros Hfree. pose proof (proj1 (collision_free_spec _) Hfree) as Hfree'.
    clear Hfree. rename Hfree' into Hfree.
    destruct (run_numbering (base_slugs tree) Hfree (slugger_inputs tree) [] ∅)
      as (occ2 & Hnum); [done|apply table_inv_empty|].
    unfold new_Slugger in Hss. rewrite Hss in Hnum. injection Hnum as -> _.
    intros i b Hb. by apply spec_numbering_from_lookup.
  - intros Hnum. apply collision_free_spec. intros b j Hj Hin.
    destruct (repeats_position (base_slugs tree) b j) as (q & Hq & Hrq); [lia|].
    destruct (repeats_position (base_slugs tree) (suffixed b (N.of_nat j)) 0)
      as (p & Hp & Hrp); [by apply repeats_elem_of|].
    pose proof (Hnum q b Hq) as Hsq. rewrite Hrq in Hsq.
    pose proof (Hnum p _ Hp) as Hsp. rewrite Hrp in Hsp.
    destruct j as [|j']; [lia|].
    apply run_keys in Hss as (Hnd & _).
    pose proof (NoDup_lookup _ _ _ _ Hnd Hsq Hsp) as ->.
    rewrite Hq in Hp. injection Hp as Hp. symmetry in Hp.
    by apply suffixed_ne in Hp.
  - intros i b s Hb Hs. unfold base_slugs in Hb.
    apply list_lookup_fmap_Some in Hb as (v & -> & Hv).
    destruct (run_at _ _ _ _ _ _ Hss Hv Hs) as (Hnew & Hfirst & Hnext & _).
    done.
Qed.

(** The document with two headings titled "Visão Geral". *)
Lemma C3_numbering_of_repeats_witness :
  collision_free (base_slugs (R := latin1) (document ["Visão Geral"; "Visão Geral"]))
    = true ∧
  ∃ tree' ss,
    remarkAsciiSlugs (R := latin1) () (document ["Visão Geral"; "Visão Geral"])
      = Some tree' ∧
    assigned tree' = Some <$> ss ∧
    ss = [utf16 "visao-geral"; utf16 "visao-geral-1"].
Proof.
  split; [vm_compute; reflexivity|].
  destruct (C3_numbering_of_repeats latin1
              (document ["Visão Geral"; "Visão Geral"]))
    as (tree' & ss & Hrun & Hids & Hlen & [Hnum _] & _).
  exists tree', ss. split; [exact Hrun|]. split; [exact Hids|].
  specialize (Hnum ltac:(vm_compute; reflexivity)).
  pose proof (Hnum 0 (utf16 "visao-geral") eq_refl) as H0.
  pose proof (Hnum 1 (utf16 "visao-geral") eq_refl) as H1.
  destruct ss as [|s0 [|s1 [|s2 ss]]]; try discriminate Hlen.
  injection H0 as ->. injection H1 as ->. reflexivity.
Defined.

(** Without a repeat nothing collides: "Node" and "Node 18". *)
Example node_18_slugs :
  collision_free (base_slugs (R := latin1) (document ["Node"; "Node 18"])) = true ∧
  slugs_of latin1 (document ["Node"; "Node 18"])
    = Some [Some (utf16 "node"); Some (utf16 "node-18")].
Proof. split; vm_compute; reflexivity. Qed.

(** A base slug that ends in a hyphen does not collide either. *)
Example trailing_hyphen_slugs :
  collision_free
    (base_slugs (R := latin1)
       (root_node [heading_node [text_node "Instalação"];
                   heading_node [text_node "Instalação "; link_node "aqui"];
                   heading_node [text_node "Instalação"]])) = true ∧
  slugs_of latin1
    (root_node [heading_node [text_node "Instalação"];
                heading_node [text_node "Instalação "; link_node "aqui"];
                heading_node [text_node "Instalação"]])
    = Some [Some (utf16 "instalacao"); Some (utf16 "instalacao-");
            Some (utf16 "instalacao-1")].
Proof. split; vm_compute; reflexivity. Qed.

(** The example of the documentation: two headings titled "Visão Geral". *)
Example visao_geral_slugs :
  slugs_of latin1 (document ["Visão Geral"; "Visão Geral"])
    = Some [Some (utf16 "visao-geral"); Some (utf16 "visao-geral-1")].
Proof. vm_compute; reflexivity. Qed.


(** ** Normalisation and text extraction *)

Lemma combining_mark_range c :
  combining_mark c = false ↔ ¬ (768 ≤ c ≤ 879)%N.
Proof.
  unfold combining_mark.
  destruct (N.leb_spec 768 c), (N.leb_spec c 879); simpl; split; try done; lia.
Qed.

Lemma stripDiacritics_range `{Runtime} (str : list N) :
  stripDiacritics str = filter (λ c, ¬ (768 ≤ c ≤ 879)%N) (normalizeNFD str).
Proof.
  unfold stripDiacritics. apply list_filter_iff. intros c.
  apply combining_mark_range.
Qed.

Lemma heading_text_spec (n : node) : heading_text n = spec_text (children n).
Proof.
  unfold heading_text, join_values. induction (children n) as [|c r IH]; [done|].
  rewrite filter_cons. simpl. unfold text_or_inlineCode at 1.
  destruct (decide (type c = "text" ∨ type c = "inlineCode")) as [Hq|Hq].
  - rewrite decide_True; [by rewrite fmap_cons, concat_cons, IH|].
    apply orb_true_iff. destruct Hq as [Hq|Hq]; [left|right];
      by apply bool_decide_eq_true.
  - rewrite decide_False; [done|].
    intros [?%bool_decide_eq_true|?%bool_decide_eq_true]%orb_true_iff; tauto.
Qed.

(** C4. The text of a heading is normalised before the slug is derived:
    for every document the slugs are those of a run of the slugger over
    the canonical decomposition (NFD) of each heading text from which
    exactly the code units of the block U+0300..U+036F have been removed;
    with the Latin-1 runtime, "seção" becomes "secao" and a heading whose
    only text is "Seção 1" is assigned secao-1. *)
Theorem C4_text_normalised_before_slug :
  (∀ (R : Runtime) (tree : node), ∃ tree' ss occ',
     remarkAsciiSlugs () tree = Some tree' ∧
     assigned tree' = Some <$> ss ∧
     mapM Slugger_slug
       ((λ text, filter (λ c, ¬ (768 ≤ c ≤ 879)%N) (normalizeNFD text))
          <$> heading_texts tree) new_Slugger = Some (ss, occ')) ∧
  stripDiacritics (R := latin1) (utf16 "seção") = utf16 "secao" ∧
  slugs_of latin1 (document ["Seção 1"]) = Some [Some (utf16 "secao-1")].
Proof.
  split; [|split; vm_compute; reflexivity].
  intros R tree. destruct (remarkAsciiSlugs_correct tree)
    as (tree' & ss & occ' & Hrun & Hss & _ & Hids & _).
  exists tree', ss, occ'. split; [done|]. split; [done|].
  rewrite <- Hss. f_equal. unfold slugger_inputs.
  apply list_fmap_ext. intros _ text _. symmetry. apply stripDiacritics_range.
Qed.

(** C5 (as stated, refuted). The separator run " & " of "Prós & Contras"
    leaves two consecutive hyphens, and the text "Instalação " in front of
    a link leaves a trailing hyphen. *)
Lemma C5_hyphens_neither_collapsed_nor_trimmed :
  slugs_of latin1 (document ["Prós & Contras"])
    = Some [Some (utf16 "pros--contras")] ∧
  slugs_of latin1
    (root_node [heading_node [text_node "Instalação "; link_node "aqui"]])
    = Some [Some (utf16 "instalacao-")].
Proof. split; vm_compute; reflexivity. Qed.

(** C5 (amended). Slug derivation lower-cases the normalised text, deletes
    what the character table of the slugger matches and replaces every
    space by one hyphen, position by position: runs are not collapsed and
    hyphens are not trimmed.  The base slug has the length of the text
    that is left after the deletion, holds a hyphen wherever that text
    holds a space and the same code unit elsewhere, and so contains no
    space; the assigned slug is the base slug, possibly with a counter
    suffix. *)
Theorem C5_spaces_become_hyphens (R : Runtime) (tree : node) (i : nat)
    (text : list N) :
  heading_texts tree !! i = Some text →
  ∃ tree' ss s b,
    remarkAsciiSlugs () tree = Some tree' ∧
    assigned tree' = Some <$> ss ∧
    ss !! i = Some s ∧
    (s = b ∨ ∃ n, (1 ≤ n)%N ∧ s = suffixed b n) ∧
    length b = length (regex_remove (toLowerCase (stripDiacritics text))) ∧
    (∀ j c, regex_remove (toLowerCase (stripDiacritics text)) !! j = Some c →
       b !! j = Some (if decide (c = SPACE) then HYPHEN else c)) ∧
    SPACE ∉ b.
Proof.
  intros Htext. destruct (slug_at tree i text Htext)
    as (tree' & ss & s & Hrun & Hids & Hs & _ & _ & _ & Hform).
  exists tree', ss, s, (slug (stripDiacritics text)).
  split; [done|]. split; [done|]. split; [done|]. split; [done|].
  unfold slug, replace_spaces. split; [by rewrite length_fmap|]. split.
  - intros j c Hj. by rewrite list_lookup_fmap, Hj.
  - intros (c & Hc & _)%list_elem_of_fmap. by destruct (decide (c = SPACE)).
Qed.

(** The heading "Prós & Contras". *)
Lemma C5_spaces_become_hyphens_witness :
  heading_texts (document ["Prós & Contras"]) !! 0
    = Some (utf16 "Prós & Contras") ∧
  ∃ tree' ss s b,
    remarkAsciiSlugs (R := latin1) () (document ["Prós & Contras"]) = Some tree' ∧
    assigned tree' = Some <$> ss ∧
    ss !! 0 = Some s ∧
    (s = b ∨ ∃ n, (1 ≤ n)%N ∧ s = suffixed b n) ∧
    length b
      = length (Latin1.remove (Latin1.lower
                  (stripDiacritics (R := latin1) (utf16 "Prós & Contras")))) ∧
    (∀ j c,
       Latin1.remove (Latin1.lower
         (stripDiacritics (R := latin1) (utf16 "Prós & Contras"))) !! j = Some c →
       b !! j = Some (if decide (c = SPACE) then HYPHEN else c)) ∧
    SPACE ∉ b.
Proof.
  split; [reflexivity|].
  apply (C5_spaces_become_hyphens latin1 (document ["Prós & Contras"]) 0).
  reflexivity.
Defined.

(** C6. The text used for the slug of a heading is the in-order
    concatenation of the values of its direct children of kind text or
    inline code: it is what the documentation describes ([spec_text]), a
    child of any other kind can be removed, with all it contains, without
    changing it, and the slugs of a document are those of a run of the
    slugger over these texts (normalised) in document order. *)
Theorem C6_text_of_direct_children :
  (∀ n : node, heading_text n = spec_text (children n)) ∧
  (∀ ty v d fs cs1 c cs2,
     type c ≠ "text" → type c ≠ "inlineCode" →
     heading_text (Node ty v (cs1 ++ c :: cs2) d fs)
       = heading_text (Node ty v (cs1 ++ cs2) d fs)) ∧
  (∀ (R : Runtime) (tree : node), ∃ tree' ss occ',
     remarkAsciiSlugs () tree = Some tree' ∧
     assigned tree' = Some <$> ss ∧
     mapM Slugger_slug
       ((λ h, stripDiacritics (spec_text (children h))) <$> headings tree)
       new_Slugger = Some (ss, occ')).
Proof.
  split; [exact heading_text_spec|]. split.
  - intros ty v d fs cs1 c cs2 Ht Hc. unfold heading_text. simpl.
    rewrite !filter_app, filter_cons. rewrite decide_False; [done|].
    unfold text_or_inlineCode.
    intros [?%bool_decide_eq_true|?%bool_decide_eq_true]%orb_true_iff; done.
  - intros R tree. destruct (remarkAsciiSlugs_correct tree)
      as (tree' & ss & occ' & Hrun & Hss & _ & Hids & _).
    exists tree', ss, occ'. split; [done|]. split; [done|].
    rewrite <- Hss. f_equal. unfold slugger_inputs, heading_texts.
    rewrite <- list_fmap_compose. apply list_fmap_ext. intros _ h _. simpl.
    by rewrite heading_text_spec.
Qed.

(** ** Effect on the tree, invocations, character set *)

(** C7. The transformer changes the tree by the slugs only: each heading
    gets its final slug at [data.id] and at [data.hProperties.id], with
    [data] and [hProperties] created when absent and their other entries
    kept; the data of every other node, and the type, value, other fields,
    number and order of the children of every node are as before. *)
Theorem C7_only_the_slugs_are_written (R : Runtime) (tree : node) :
  ∃ tree' ss occ',
    remarkAsciiSlugs () tree = Some tree' ∧
    mapM Slugger_slug (slugger_inputs tree) new_Slugger = Some (ss, occ') ∧
    slugged tree ss tree' ∧
    skeleton tree' = skeleton tree.
Proof.
  destruct (remarkAsciiSlugs_correct tree)
    as (tree' & ss & occ' & Hrun & Hss & Hsl & _ & _ & Hsk).
  by exists tree', ss, occ'.
Qed.

(** C8 (as stated, refuted). The text "Passo 1" occurs for the first time
    at the third heading of one document and at the first heading of
    another; it is assigned passo-1-1 in the former, where passo-1 was
    given to the repeat of "Passo", and passo-1 in the latter. *)
Lemma C8_first_occurrence_differs :
  heading_texts (document ["Passo"; "Passo"; "Passo 1"])
    = [utf16 "Passo"; utf16 "Passo"; utf16 "Passo 1"] ∧
  slugs_of latin1 (document ["Passo"; "Passo"; "Passo 1"])
    = Some [Some (utf16 "passo"); Some (utf16 "passo-1");
            Some (utf16 "passo-1-1")] ∧
  slugs_of latin1 (document ["Passo 1"]) = Some [Some (utf16 "passo-1")].
Proof. repeat split; vm_compute; reflexivity. Qed.

(** C8 (amended). Every invocation starts from an empty table, so what a
    heading is assigned depends on its own document only: for two
    documents, each processed by its own invocation, a heading text that
    occurs in both is assigned the same unsuffixed base slug in each,
    provided no earlier heading of the same document was assigned that
    string.  No proviso is needed for the first heading of a document. *)
Theorem C8_no_state_across_invocations (R : Runtime) (tree1 tree2 : node)
    (i j : nat) (text : list N) :
  heading_texts tree1 !! i = Some text →
  heading_texts tree2 !! j = Some text →
  ∃ tree1' tree2' ss1 ss2 s1 s2,
    remarkAsciiSlugs () tree1 = Some tree1' ∧
    remarkAsciiSlugs () tree2 = Some tree2' ∧
    assigned tree1' = Some <$> ss1 ∧ assigned tree2' = Some <$> ss2 ∧
    ss1 !! i = Some s1 ∧ ss2 !! j = Some s2 ∧
    (slug (stripDiacritics text) ∉ take i ss1 → s1 = slug (stripDiacritics text)) ∧
    (slug (stripDiacritics text) ∉ take j ss2 → s2 = slug (stripDiacritics text)) ∧
    (i = 0 → s1 = slug (stripDiacritics text)) ∧
    (j = 0 → s2 = slug (stripDiacritics text)).
Proof.
  intros H1 H2.
  destruct (slug_at tree1 i text H1)
    as (tree1' & ss1 & s1 & Hrun1 & Hids1 & Hs1 & _ & Hfirst1 & _).
  destruct (slug_at tree2 j text H2)
    as (tree2' & ss2 & s2 & Hrun2 & Hids2 & Hs2 & _ & Hfirst2 & _).
  exists tree1', tree2', ss1, ss2, s1, s2. repeat (split; [done|]). split.
  - intros ->. apply Hfirst1. simpl. apply not_elem_of_nil.
  - intros ->. apply Hfirst2. simpl. apply not_elem_of_nil.
Qed.

(** Two documents with an "Introdução" heading, the first heading of one
    and the second of the other. *)
Lemma C8_no_state_across_invocations_witness :
  heading_texts (document ["Introdução"; "Instalação"]) !! 0
    = Some (utf16 "Introdução") ∧
  heading_texts (document ["Resumo"; "Introdução"]) !! 1
    = Some (utf16 "Introdução") ∧
  ∃ tree1' tree2' ss1 ss2 s1 s2,
    remarkAsciiSlugs (R := latin1) () (document ["Introdução"; "Instalação"])
      = Some tree1' ∧
    remarkAsciiSlugs (R := latin1) () (document ["Resumo"; "Introdução"])
      = Some tree2' ∧
    assigned tree1' = Some <$> ss1 ∧ assigned tree2' = Some <$> ss2 ∧
    ss1 !! 0 = Some s1 ∧ ss2 !! 1 = Some s2 ∧
    (utf16 "introducao" ∉ take 0 ss1 → s1 = utf16 "introducao") ∧
    (utf16 "introducao" ∉ take 1 ss2 → s2 = utf16 "introducao") ∧
    (0 = 0 → s1 = utf16 "introducao") ∧
    (1 = 0 → s2 = utf16 "introducao").
Proof.
  split; [reflexivity|]. split; [reflexivity|].
  apply (C8_no_state_across_invocations latin1
           (document ["Introdução"; "Instalação"])
           (document ["Resumo"; "Introdução"]) 0 1 (utf16 "Introdução"));
    reflexivity.
Defined.

(** The example of the documentation: the first "Introdução" heading of
    each of two documents processed one after the other. *)
Example introducao_slugs :
  (slugs_of latin1 <$> [document ["Introdução"; "Instalação"];
                        document ["Introdução"; "Resumo"]])
    = [Some [Some (utf16 "introducao"); Some (utf16 "instalacao")];
       Some [Some (utf16 "introducao"); Some (utf16 "resumo")]].
Proof. vm_compute; reflexivity. Qed.

(** C9 (as stated, refuted). The letter U+00DF of "Straße" has no
    decomposition and is a letter for the slugger: it stays in the slug. *)
Lemma C9_slug_not_ascii :
  slugs_of latin1 (document ["Straße"]) = Some [Some (utf16 "straße")] ∧
  ¬ Forall (λ c, (c < 128)%N) (utf16 "straße").
Proof.
  split; [vm_compute; reflexivity|].
  intros Hall. rewrite Forall_forall in Hall.
  specialize (Hall 223%N ltac:(vm_compute; set_solver)). lia.
Qed.

Lemma replace_spaces_ascii_iff (s : list N) :
  Forall (λ c, (c < 128)%N) (replace_spaces s) ↔ Forall (λ c, (c < 128)%N) s.
Proof.
  unfold replace_spaces. rewrite Forall_fmap. apply Forall_iff. intros c. simpl.
  destruct (decide (c = SPACE)) as [->|]; [|done]. unfold HYPHEN, SPACE. lia.
Qed.

Lemma replace_spaces_keeps (c : N) (s : list N) :
  c ∈ s → c ≠ SPACE → c ∈ replace_spaces s.
Proof.
  intros Hc Hne. unfold replace_spaces. apply list_elem_of_fmap.
  exists c. split; [|done]. by rewrite decide_False.
Qed.

Lemma suffixed_ascii_iff (b : list N) (n : N) :
  Forall (λ c, (c < 128)%N) (suffixed b n) ↔ Forall (λ c, (c < 128)%N) b.
Proof.
  unfold suffixed. rewrite Forall_app, Forall_cons. split; [tauto|].
  intros Hb. split; [done|]. split; [unfold HYPHEN; lia|apply toString_ascii].
Qed.

(** C9 (amended). A slug consists of ASCII characters only exactly when no
    character outside ASCII is left of the heading text after
    normalisation (decomposition and removal of the combining marks),
    lower-casing and the deletion of the characters of the slugger's
    table; in particular when the normalised text is ASCII.  A character
    outside ASCII that is left is kept in the slug as it is. *)
Theorem C9_ascii_text_ascii_slug (R : Runtime) (tree : node) (i : nat)
    (text : list N) :
  heading_texts tree !! i = Some text →
  ∃ tree' ss s,
    remarkAsciiSlugs () tree = Some tree' ∧
    assigned tree' = Some <$> ss ∧
    ss !! i = Some s ∧
    (Forall (λ c, (c < 128)%N) s ↔
     Forall (λ c, (c < 128)%N)
       (regex_remove (toLowerCase (stripDiacritics text)))) ∧
    (Forall (λ c, (c < 128)%N) (stripDiacritics text) →
     Forall (λ c, (c < 128)%N) s) ∧
    (∀ c, c ∈ regex_remove (toLowerCase (stripDiacritics text)) →
       (128 ≤ c)%N → c ∈ s).
Proof.
  intros Htext. destruct (slug_at tree i text Htext)
    as (tree' & ss & s & Hrun & Hids & Hs & _ & _ & _ & Hform).
  exists tree', ss, s. repeat (split; [done|]).
  assert (Forall (λ c, (c < 128)%N) s ↔
          Forall (λ c, (c < 128)%N)
            (regex_remove (toLowerCase (stripDiacritics text)))) as Hiff.
  { rewrite <- (replace_spaces_ascii_iff
                    (regex_remove (toLowerCase (stripDiacritics text)))).
    change (replace_spaces (regex_remove (toLowerCase (stripDiacritics text))))
      with (slug (stripDiacritics text)).
    destruct Hform as [->|(n & _ & ->)]; [reflexivity|apply suffixed_ascii_iff]. }
  split; [done|]. split.
  - intros Hascii. apply Hiff.
    pose proof (toLowerCase_ascii _ Hascii) as Hlow.
    rewrite Forall_forall in *. intros c Hc. apply Hlow.
    eapply elem_of_sublist; [exact Hc|apply regex_remove_sublist].
  - intros c Hc Hge.
    assert (c ∈ slug (stripDiacritics text)) as Hin.
    { unfold slug. apply replace_spaces_keeps; [done|]. unfold SPACE. lia. }
    destruct Hform as [->|(n & _ & ->)]; [done|].
    unfold suffixed. apply elem_of_app. by left.
Qed.

(** The heading "Seção 1": ASCII once the cedilla and the tilde are gone. *)
Lemma C9_ascii_text_ascii_slug_witness :
  heading_texts (document ["Seção 1"]) !! 0 = Some (utf16 "Seção 1") ∧
  ∃ tree' ss s,
    remarkAsciiSlugs (R := latin1) () (document ["Seção 1"]) = Some tree' ∧
    assigned tree' = Some <$> ss ∧
    ss !! 0 = Some s ∧
    (Forall (λ c, (c < 128)%N) s ↔
     Forall (λ c, (c < 128)%N)
       (Latin1.remove (Latin1.lower
          (stripDiacritics (R := latin1) (utf16 "Seção 1"))))) ∧
    (Forall (λ c, (c < 128)%N) (stripDiacritics (R := latin1) (utf16 "Seção 1")) →
     Forall (λ c, (c < 128)%N) s) ∧
    (∀ c, c ∈ Latin1.remove (Latin1.lower
                (stripDiacritics (R := latin1) (utf16 "Seção 1"))) →
       (128 ≤ c)%N → c ∈ s).
Proof.
  split; [reflexivity|].
  apply (C9_ascii_text_ascii_slug latin1 (document ["Seção 1"]) 0
           (utf16 "Seção 1")).
  reflexivity.
Defined.

(** A symbol outside ASCII that the table deletes leaves an ASCII slug. *)
Example times_sign_slug :
  slugs_of latin1 (document ["2 × 3"]) = Some [Some (utf16 "2--3")].
Proof. vm_compute; reflexivity. Qed.

(** ** Headings with the same base slug *)

Lemma mapM_cons_Some {A B} (f : A → M B) a l occ r occ' :
  mapM f (a :: l) occ = Some (r, occ') →
  ∃ b occ1 r1,
    f a occ = Some (b, occ1) ∧ mapM f l occ1 = Some (r1, occ') ∧ r = b :: r1.
Proof.
  simpl. unfold bind, ret. intros Hrun.
  destruct (f a occ) as [[b occ1]|]; [|done].
  destruct (mapM f l occ1) as [[r1 occ2]|] eqn:Hl; [|done].
  injection Hrun as <- <-. by eexists _, _, _.
Qed.

Lemma mapM_app_Some {A B} (f : A → M B) l1 l2 occ r occ' :
  mapM f (l1 ++ l2) occ = Some (r, occ') →
  ∃ r1 occ1 r2,
    mapM f l1 occ = Some (r1, occ1) ∧ mapM f l2 occ1 = Some (r2, occ') ∧
    r = r1 ++ r2.
Proof.
  rewrite mapM_app. intros Hrun.
  destruct (mapM f l1 occ) as [[r1 occ1]|]; [|done].
  destruct (mapM f l2 occ1) as [[r2 occ2]|] eqn:Hl; [|done].
  injection Hrun as <- <-. by eexists _, _, _.
Qed.

(** The loop changes the counter of its own base slug only. *)
Lemma slug_loop_other_counter f (b x : list N) :
  ∀ r (occ : gmap (list N) N) s occ' k,
    slug_loop f b r occ = Some (s, occ') → b ≠ x →
    occ !! x = Some k → occ' !! x = Some k.
Proof.
  induction f as [|f IH]; intros r occ s occ' k Hloop Hne Hx; [done|].
  simpl in Hloop. destruct (occ !! r) as [y|] eqn:Hr.
  - destruct (occ !! b) as [n|]; [|done].
    eapply IH; [exact Hloop|done|]. by rewrite lookup_insert_ne.
  - injection Hloop as <- <-. rewrite lookup_insert_ne; [done|]. congruence.
Qed.

Lemma run_other_counter {R : Runtime} (vs : list (list N)) (x : list N) :
  ∀ (occ : gmap (list N) N) ss occ' k,
    mapM Slugger_slug vs occ = Some (ss, occ') →
    (∀ v, v ∈ vs → slug v ≠ x) →
    occ !! x = Some k → occ' !! x = Some k.
Proof.
  induction vs as [|v vs IH]; intros occ ss occ' k Hrun Hvs Hx.
  { simpl in Hrun. by injection Hrun as _ <-. }
  apply mapM_cons_Some in Hrun as (s & occ1 & ss1 & Hs & Hrest & _).
  eapply IH; [exact Hrest|intros w Hw; apply Hvs; set_solver|].
  eapply slug_loop_other_counter; [exact Hs|apply Hvs; set_solver|done].
Qed.

(** C10 (as stated, refuted). "Seção" and "Secao" have the same base slug,
    but after a heading "Secao 1" the second of them is assigned secao-2:
    secao-1 is taken. *)
Lemma C10_later_heading_not_suffix_1 :
  stripDiacritics (R := latin1) (utf16 "Seção")
    = stripDiacritics (R := latin1) (utf16 "Secao") ∧
  slugs_of latin1 (document ["Secao 1"; "Seção"; "Secao"])
    = Some [Some (utf16 "secao-1"); Some (utf16 "secao");
            Some (utf16 "secao-2")].
Proof. split; vm_compute; reflexivity. Qed.

(** C10 (amended). Disambiguation is keyed on the base slug, not on the
    heading text: of two headings of a document whose texts are equal once
    normalised, whatever headings stand before, between and after them,
    the later one is always assigned the common base slug with a suffix
    [-n], [n] at least 1, whether or not the two texts are equal.  The
    earlier one is assigned the base slug when that string has not been
    assigned before it; the later one is then assigned the base slug
    followed by -1, provided no heading between them has that base slug
    and no heading before the later one was assigned the base slug
    followed by -1. *)
Theorem C10_keyed_on_base_slug (R : Runtime) (tree : node)
    (pre mid post : list (list N)) (t1 t2 : list N) :
  heading_texts tree = pre ++ t1 :: mid ++ t2 :: post →
  stripDiacritics t1 = stripDiacritics t2 →
  ∃ tree' ss1 s1 ssm s2 ss3,
    remarkAsciiSlugs () tree = Some tree' ∧
    assigned tree' = Some <$> (ss1 ++ s1 :: ssm ++ s2 :: ss3) ∧
    length ss1 = length pre ∧ length ssm = length mid ∧
    length ss3 = length post ∧
    slug (stripDiacritics t2) = slug (stripDiacritics t1) ∧
    (∃ n, (1 ≤ n)%N ∧ s2 = suffixed (slug (stripDiacritics t1)) n) ∧
    (slug (stripDiacritics t1) ∉ ss1 → s1 = slug (stripDiacritics t1)) ∧
    (slug (stripDiacritics t1) ∉ ss1 →
     (∀ t, t ∈ mid → slug (stripDiacritics t) ≠ slug (stripDiacritics t1)) →
     slug (stripDiacritics t1) ++ utf16 "-1" ∉ ss1 ++ ssm →
     s2 = slug (stripDiacritics t1) ++ utf16 "-1").
Proof.
  intros Htexts Heq.
  destruct (remarkAsciiSlugs_correct tree)
    as (tree' & ss & occ' & Hrun & Hss & _ & Hids & _).
  unfold slugger_inputs in Hss.
  rewrite Htexts, fmap_app, fmap_cons, fmap_app, fmap_cons, <- Heq in Hss.
  set (b := slug (stripDiacritics t1)) in *.
  apply mapM_app_Some in Hss as (ss1 & o1 & rest1 & H1 & Hss & ->).
  apply mapM_cons_Some in Hss as (s1 & o2 & rest2 & Hs1 & Hss & ->).
  apply mapM_app_Some in Hss as (ssm & o3 & rest3 & Hm & Hss & ->).
  apply mapM_cons_Some in Hss as (s2 & o4 & ss3 & Hs2 & H3 & ->).
  exists tree', ss1, s1, ssm, s2, ss3. split; [done|]. split; [done|].
  split; [by rewrite (mapM_length _ _ _ _ _ H1), length_fmap|].
  split; [by rewrite (mapM_length _ _ _ _ _ Hm), length_fmap|].
  split; [by rewrite (mapM_length _ _ _ _ _ H3), length_fmap|].
  split; [by rewrite <- Heq|].
  pose proof (run_keys _ _ _ _ H1) as (_ & _ & Hdom1).
  unfold new_Slugger in Hdom1. rewrite dom_empty_L, (right_id_L ∅ (∪)) in Hdom1.
  pose proof (Slugger_slug_sound _ _ _ _ Hs1) as (_ & Hdom2 & _).
  pose proof (run_keys _ _ _ _ Hm) as (_ & _ & Hdom3).
  assert (b ∉ ss1 → s1 = b ∧ o2 = <[b := 0%N]> o1) as Hfirst.
  { intros Hb. assert (o1 !! b = None) as Hnone.
    { apply not_elem_of_dom. rewrite Hdom1. set_solver. }
    rewrite (Slugger_slug_fresh _ _ Hnone) in Hs1. by injection Hs1 as <- <-. }
  split; [|split].
  - eapply Slugger_slug_taken; [exact Hs2|]. apply elem_of_dom.
    rewrite Hdom3, Hdom2, Hdom1.
    destruct (decide (b ∈ ss1)) as [Hb|Hb]; [set_solver|].
    destruct (Hfirst Hb) as [-> _]. set_solver.
  - intros Hb. by destruct (Hfirst Hb).
  - intros Hb Hmid Hfree. destruct (Hfirst Hb) as [-> ->].
    assert (o3 !! b = Some 0%N) as Hzero.
    { eapply run_other_counter; [exact Hm| |apply lookup_insert_eq].
      intros v (t & -> & Ht)%list_elem_of_fmap. by apply Hmid. }
    assert (o3 !! suffixed b (0 + 1) = None) as Hnone.
    { apply not_elem_of_dom. rewrite Hdom3, Hdom2, Hdom1.
      change (suffixed b (0 + 1)) with (b ++ utf16 "-1").
      pose proof (suffixed_ne b 1) as Hne.
      change (suffixed b 1) with (b ++ utf16 "-1") in Hne. set_solver. }
    rewrite (Slugger_slug_repeat _ _ _ Hzero Hnone) in Hs2.
    by injection Hs2 as <- _.
Qed.

(** "Seção" and "Secao" with other headings before, between and after. *)
Lemma C10_keyed_on_base_slug_witness :
  heading_texts (document ["Introdução"; "Seção"; "Resumo"; "Secao"; "Fim"])
    = [utf16 "Introdução"] ++ utf16 "Seção" :: [utf16 "Resumo"]
        ++ utf16 "Secao" :: [utf16 "Fim"] ∧
  stripDiacritics (R := latin1) (utf16 "Seção")
    = stripDiacritics (R := latin1) (utf16 "Secao") ∧
  ∃ tree' ss1 s1 ssm s2 ss3,
    remarkAsciiSlugs (R := latin1) ()
      (document ["Introdução"; "Seção"; "Resumo"; "Secao"; "Fim"]) = Some tree' ∧
    assigned tree' = Some <$> (ss1 ++ s1 :: ssm ++ s2 :: ss3) ∧
    length ss1 = 1 ∧ length ssm = 1 ∧ length ss3 = 1 ∧
    slug (R := latin1) (stripDiacritics (R := latin1) (utf16 "Secao"))
      = utf16 "secao" ∧
    (∃ n, (1 ≤ n)%N ∧ s2 = suffixed (utf16 "secao") n) ∧
    (utf16 "secao" ∉ ss1 → s1 = utf16 "secao") ∧
    (utf16 "secao" ∉ ss1 →
     (∀ t, t ∈ [utf16 "Resumo"] →
        slug (R := latin1) (stripDiacritics (R := latin1) t) ≠ utf16 "secao") →
     utf16 "secao" ++ utf16 "-1" ∉ ss1 ++ ssm →
     s2 = utf16 "secao" ++ utf16 "-1").
Proof.
  split; [reflexivity|]. split; [reflexivity|].
  apply (C10_keyed_on_base_slug latin1
           (document ["Introdução"; "Seção"; "Resumo"; "Secao"; "Fim"])
           [utf16 "Introdução"] [utf16 "Resumo"] [utf16 "Fim"]
           (utf16 "Seção") (utf16 "Secao")); reflexivity.
Defined.

(** The two headings alone, and with the other headings around them. *)
Example secao_secao_slugs :
  slugs_of latin1 (document ["Seção"; "Secao"])
    = Some [Some (utf16 "secao"); Some (utf16 "secao-1")] ∧
  slugs_of latin1 (document ["Introdução"; "Seção"; "Resumo"; "Secao"; "Fim"])
    = Some [Some (utf16 "introducao"); Some (utf16 "secao");
            Some (utf16 "resumo"); Some (utf16 "secao-1"); Some (utf16 "fim")].
Proof. split; vm_compute; reflexivity. Qed.

(** * Further properties of the plugin *)

(** ** The two places of a slug *)

Lemma fmap_agree {A B} (f g : A → option B) (l : list A) (ss : list B) :
  f <$> l = Some <$> ss → g <$> l = Some <$> ss →
  Forall (λ x, is_Some (f x) ∧ g x = f x) l.
Proof.
  revert ss. induction l as [|x l IH]; intros [|s ss] Hf Hg; simpl in *;
    try done.
  injection Hf as Hfx Hf. injection Hg as Hgx Hg.
  constructor; [|by eapply IH]. split; [by eexists|congruence].
Qed.

(** X1. After the transformer has run, every heading of the document
    carries an [id] in its data, and the [id] among its [hProperties] is
    the same string. *)
Theorem X1_both_ids_agree (R : Runtime) (tree : node) :
  ∃ tree',
    remarkAsciiSlugs () tree = Some tree' ∧
    Forall (λ h, is_Some (node_id h) ∧ node_hid h = node_id h) (headings tree').
Proof.
  destruct (remarkAsciiSlugs_correct tree)
    as (tree' & ss & occ' & Hrun & _ & _ & Hids & Hhids & _).
  exists tree'. split; [done|]. by eapply fmap_agree.
Qed.

(** ** Documents without headings, and running the plugin again *)

Lemma mapM_visit_same {R : Runtime} (cs : list node) :
  Forall (λ c, ∀ occ, visit c occ = Some (c, occ)) cs →
  ∀ occ, mapM visit cs occ = Some (cs, occ).
Proof.
  induction 1 as [|c r Hc _ IH]; intros occ; [done|].
  simpl. unfold bind, ret. by rewrite Hc, IH.
Qed.

Lemma visit_no_headings {R : Runtime} (n : node) :
  headings n = [] → ∀ occ, visit n occ = Some (n, occ).
Proof.
  induction n as [ty v cs d fs IHcs] using node_ind'. intros Hnone occ.
  simpl in Hnone. apply app_eq_nil in Hnone as [Hty Hcs].
  destruct (decide (ty = "heading")) as [->|Hne]; [done|].
  simpl. rewrite decide_False by done. unfold bind at 1. unfold ret at 1.
  unfold bind, ret. rewrite mapM_visit_same; [done|].
  clear -IHcs Hcs. induction IHcs as [|c r Hc _ IH]; [constructor|].
  simpl in Hcs. apply app_eq_nil in Hcs as [Hc0 Hr].
  constructor; [by apply Hc|by apply IH].
Qed.

(** X2. A document without any heading node is returned as it is. *)
Theorem X2_no_heading_no_change (R : Runtime) (tree : node) :
  headings tree = [] → remarkAsciiSlugs () tree = Some tree.
Proof.
  intros Hnone. unfold remarkAsciiSlugs. by rewrite visit_no_headings.
Qed.

(** A document of paragraphs, a list and an image. *)
Lemma X2_no_heading_no_change_witness :
  headings (root_node [Node "paragraph" None [text_node "Olá"; image_node] None ∅;
                       Node "list" None [Node "listItem" None [] None ∅] None ∅])
    = [] ∧
  remarkAsciiSlugs (R := latin1) ()
    (root_node [Node "paragraph" None [text_node "Olá"; image_node] None ∅;
                Node "list" None [Node "listItem" None [] None ∅] None ∅])
    = Some (root_node
              [Node "paragraph" None [text_node "Olá"; image_node] None ∅;
               Node "list" None [Node "listItem" None [] None ∅] None ∅]).
Proof.
  split; [reflexivity|].
  apply (X2_no_heading_no_change latin1
           (root_node
              [Node "paragraph" None [text_node "Olá"; image_node] None ∅;
               Node "list" None [Node "listItem" None [] None ∅] None ∅])).
  reflexivity.
Defined.

Lemma skeleton_type_value (c c' : node) :
  skeleton c' = skeleton c → type c' = type c ∧ value c' = value c.
Proof. destruct c, c'. simpl. intros Heq. by injection Heq as -> -> _ _. Qed.

(** The text of a heading reads the types and values of the children only. *)
Lemma heading_text_skeleton ty v d fs ty' v' d' fs' (cs cs' : list node) :
  map skeleton cs' = map skeleton cs →
  heading_text (Node ty' v' cs' d' fs') = heading_text (Node ty v cs d fs).
Proof.
  unfold heading_text, join_values. simpl. revert cs'.
  induction cs as [|c r IH]; intros [|c' r'] Heq; simpl in Heq; try done.
  injection Heq as Hc Hr. apply skeleton_type_value in Hc as [Hty Hval].
  assert (text_or_inlineCode c' = text_or_inlineCode c) as Hq.
  { unfold text_or_inlineCode. by rewrite Hty. }
  rewrite !filter_cons.
  destruct (decide (text_or_inlineCode c = true)) as [Hc|Hc].
  - rewrite decide_True by congruence.
    rewrite !fmap_cons, !concat_cons, Hval. f_equal. by apply IH.
  - rewrite decide_False by congruence. by apply IH.
Qed.

Lemma write_slug_twice s d : write_slug s (Some (write_slug s d)) = write_slug s d.
Proof. unfold write_slug. simpl. by rewrite insert_insert_eq. Qed.

Lemma mapM_visit_again {R : Runtime} (cs : list node) :
  Forall (λ c, ∀ occ c' occ',
            visit c occ = Some (c', occ') → visit c' occ = Some (c', occ')) cs →
  ∀ occ cs' occ',
    mapM visit cs occ = Some (cs', occ') → mapM visit cs' occ = Some (cs', occ').
Proof.
  induction 1 as [|c r Hc _ IH]; intros occ cs' occ' Hrun; simpl in Hrun.
  { by injection Hrun as <- <-. }
  unfold bind, ret in Hrun. destruct (visit c occ) as [[c' occ1]|] eqn:Hv; [|done].
  destruct (mapM visit r occ1) as [[r' occ2]|] eqn:Hr; [|done].
  injection Hrun as <- <-. simpl. unfold bind, ret.
  by rewrite (Hc _ _ _ Hv), (IH _ _ _ Hr).
Qed.

Lemma visit_again {R : Runtime} (n : node) :
  ∀ occ n' occ', visit n occ = Some (n', occ') → visit n' occ = Some (n', occ').
Proof.
  induction n as [ty v cs d fs IHcs] using node_ind'. intros occ n' occ' Hv.
  assert (Forall visit_spec cs) as Hspec.
  { apply Forall_forall. intros c _. apply visit_correct. }
  simpl in Hv. unfold bind at 1 in Hv.
  destruct (decide (ty = "heading")) as [->|Hne].
  - unfold visitor, bind, ret in Hv.
    destruct (Slugger_slug _ occ) as [[s occ1]|] eqn:Hs; [|done]. simpl in Hv.
    destruct (mapM visit cs occ1) as [[cs' occ2]|] eqn:Hcs; [|done].
    injection Hv as <- <-.
    destruct (visit_children cs Hspec occ1)
      as (cs0 & ss & occ0 & Hcs0 & _ & _ & _ & _ & Hsk).
    rewrite Hcs in Hcs0. injection Hcs0 as <- <-.
    simpl. unfold bind at 1. unfold visitor, bind, ret.
    rewrite (heading_text_skeleton "heading" v d fs _ _ _ _ cs cs' Hsk), Hs.
    simpl. rewrite (mapM_visit_again cs IHcs _ _ _ Hcs).
    by rewrite write_slug_twice.
  - unfold ret at 1 in Hv. unfold bind, ret in Hv. simpl in Hv.
    destruct (mapM visit cs occ) as [[cs' occ2]|] eqn:Hcs; [|done].
    injection Hv as <- <-. simpl. rewrite decide_False by done.
    unfold bind at 1. unfold ret at 1. unfold bind, ret.
    by rewrite (mapM_visit_again cs IHcs _ _ _ Hcs).
Qed.

(** X3. Running the transformer on its own result changes nothing: the
    slugs are computed from the texts, which the first run left alone, and
    are written over the ones already there. *)
Theorem X3_second_run_changes_nothing (R : Runtime) (tree : node) :
  ∃ tree',
    remarkAsciiSlugs () tree = Some tree' ∧
    remarkAsciiSlugs () tree' = Some tree'.
Proof.
  destruct (visit_correct tree new_Slugger) as (tree' & ss & occ' & Hv & _).
  exists tree'. unfold remarkAsciiSlugs.
  by rewrite (visit_again _ _ _ _ Hv), Hv.
Qed.

(** ** What the slugs depend on *)

(** X4. The slugs of a document are determined by the sequence of its
    heading texts: two trees with the same heading texts in the same
    order receive the same slugs, whatever their shape, their other nodes
    and the data already on their nodes. *)
Theorem X4_slugs_depend_on_texts_only (R : Runtime) (tree1 tree2 : node) :
  heading_texts tree1 = heading_texts tree2 →
  slugs_of R tree1 = slugs_of R tree2.
Proof.
  intros Htexts. unfold slugs_of.
  destruct (remarkAsciiSlugs_correct tree1)
    as (t1 & ss1 & o1 & Hrun1 & Hss1 & _ & Hids1 & _).
  destruct (remarkAsciiSlugs_correct tree2)
    as (t2 & ss2 & o2 & Hrun2 & Hss2 & _ & Hids2 & _).
  rewrite Hrun1, Hrun2. simpl. rewrite Hids1, Hids2.
  unfold slugger_inputs in *. rewrite Htexts in Hss1. congruence.
Qed.

(** A flat document, and one whose second heading sits in a block quote,
    has a link beside its text and already carries an id. *)
Lemma X4_slugs_depend_on_texts_only_witness :
  heading_texts (document ["Resumo"; "Conclusão"])
    = heading_texts
        (root_node
           [heading_node [text_node "Resumo"];
            Node "blockquote" None
              [Node "heading" None [text_node "Conclusão"; link_node "ver"]
                 (Some {| hProperties := None; data_id := Some (utf16 "fim");
                          data_rest := ∅ |}) ∅] None ∅]) ∧
  slugs_of latin1 (document ["Resumo"; "Conclusão"])
    = slugs_of latin1
        (root_node
           [heading_node [text_node "Resumo"];
            Node "blockquote" None
              [Node "heading" None [text_node "Conclusão"; link_node "ver"]
                 (Some {| hProperties := None; data_id := Some (utf16 "fim");
                          data_rest := ∅ |}) ∅] None ∅]).
Proof.
  split; [reflexivity|].
  apply (X4_slugs_depend_on_texts_only latin1). reflexivity.
Defined.

(** X5. Headings added after the last heading of a document do not change
    the slugs of the headings before them: when the heading texts of one
    document continue those of another, so do the slugs. *)
Theorem X5_later_headings_leave_earlier_slugs (R : Runtime) (tree1 tree2 : node)
    (more : list (list N)) :
  heading_texts tree2 = heading_texts tree1 ++ more →
  ∃ ss1 ss2,
    slugs_of R tree1 = Some (Some <$> ss1) ∧
    slugs_of R tree2 = Some (Some <$> (ss1 ++ ss2)) ∧
    length ss2 = length more.
Proof.
  intros Htexts. unfold slugs_of.
  destruct (remarkAsciiSlugs_correct tree1)
    as (t1 & ss1 & o1 & Hrun1 & Hss1 & _ & Hids1 & _).
  destruct (remarkAsciiSlugs_correct tree2)
    as (t2 & ss & o2 & Hrun2 & Hss2 & _ & Hids2 & _).
  rewrite Hrun1, Hrun2. simpl. rewrite Hids1, Hids2.
  unfold slugger_inputs in *. rewrite Htexts, fmap_app, mapM_app, Hss1 in Hss2.
  destruct (mapM Slugger_slug (stripDiacritics <$> more) o1)
    as [[ss2 o3]|] eqn:Hmore; [|done].
  injection Hss2 as <- _. exists ss1, ss2. split; [done|]. split; [done|].
  by rewrite (mapM_length _ _ _ _ _ Hmore), length_fmap.
Qed.

(** A document and the same document with one more section. *)
Lemma X5_later_headings_leave_earlier_slugs_witness :
  heading_texts (document ["Passo"; "Passo"; "Passo 1"])
    = heading_texts (document ["Passo"; "Passo"]) ++ [utf16 "Passo 1"] ∧
  ∃ ss1 ss2,
    slugs_of latin1 (document ["Passo"; "Passo"]) = Some (Some <$> ss1) ∧
    slugs_of latin1 (document ["Passo"; "Passo"; "Passo 1"])
      = Some (Some <$> (ss1 ++ ss2)) ∧
    length ss2 = length [utf16 "Passo 1"].
Proof.
  split; [reflexivity|].
  apply (X5_later_headings_leave_earlier_slugs latin1
           (document ["Passo"; "Passo"]) (document ["Passo"; "Passo"; "Passo 1"])
           [utf16 "Passo 1"]).
  reflexivity.
Defined.

(** ** The counters of the slugger *)

(** Every counter of the table accounts for keys of the table: a base slug
    with counter [k] has its suffixed forms 1 to [k] among the keys. *)
Definition counted (occ : gmap (list N) N) : Prop :=
  ∀ b k, occ !! b = Some k →
    ∀ j, (1 ≤ j ≤ k)%N → is_Some (occ !! suffixed b j).

(** The same while the loop runs, when the string under test is not yet
    stored. *)
Definition counted_but (r : list N) (occ : gmap (list N) N) : Prop :=
  ∀ b k, occ !! b = Some k →
    ∀ j, (1 ≤ j ≤ k)%N → suffixed b j = r ∨ is_Some (occ !! suffixed b j).

Lemma slug_loop_counted f (b : list N) : ∀ r (occ : gmap (list N) N) s occ',
  slug_loop f b r occ = Some (s, occ') →
  counted_but r occ →
  (r = b ∨ ∃ n, (1 ≤ n)%N ∧ r = suffixed b n ∧ occ !! b = Some n) →
  counted occ' ∧
  (s = b ∨ ∃ n, (1 ≤ n)%N ∧ s = suffixed b n ∧ occ' !! b = Some n).
Proof.
  induction f as [|f IH]; intros r occ s occ' Hloop Hcnt Hr; [done|].
  simpl in Hloop. destruct (occ !! r) as [x|] eqn:Hlook.
  - destruct (occ !! b) as [n|] eqn:Hb; [|done].
    assert (∀ y, is_Some (occ !! y) → is_Some (<[b := (n + 1)%N]> occ !! y))
      as Hkeep.
    { intros y Hy. rewrite lookup_insert_is_Some. destruct (decide (b = y)); auto. }
    apply IH in Hloop; [done| |].
    + intros b' k Hb' j Hj. destruct (decide (b' = b)) as [->|Hne].
      * rewrite lookup_insert_eq in Hb'. injection Hb' as <-.
        destruct (decide (j = n + 1)%N) as [->|Hj']; [by left|]. right.
        apply Hkeep. destruct (Hcnt b n Hb j) as [->|?]; [lia|by eexists|done].
      * rewrite lookup_insert_ne in Hb' by done. right. apply Hkeep.
        destruct (Hcnt b' k Hb' j Hj) as [->|?]; [by eexists|done].
    + right. exists (n + 1)%N. split; [lia|]. split; [done|].
      apply lookup_insert_eq.
  - injection Hloop as <- <-. split.
    + intros b' k Hb' j Hj. rewrite lookup_insert_is_Some.
      destruct (decide (r = suffixed b' j)) as [|Hne]; [by left|]. right.
      split; [done|]. destruct (decide (r = b')) as [->|Hne'].
      * rewrite lookup_insert_eq in Hb'. injection Hb' as <-. lia.
      * rewrite lookup_insert_ne in Hb' by done.
        by destruct (Hcnt b' k Hb' j Hj) as [?|?].
    + destruct Hr as [->|(n & Hn & -> & Hb)]; [by left|]. right.
      exists n. split; [done|]. split; [done|].
      by rewrite lookup_insert_ne by apply suffixed_ne.
Qed.

(** A counter is smaller than the number of keys. *)
Lemma counted_bound (occ : gmap (list N) N) (b : list N) (n : N) :
  counted occ → occ !! b = Some n → N.to_nat n < size occ.
Proof.
  intros Hcnt Hb.
  set (l := b :: ((λ j : nat, suffixed b (N.of_nat j)) <$> seq 1 (N.to_nat n))).
  assert (NoDup l) as Hnd.
  { constructor.
    - intros (j & Hj & _)%list_elem_of_fmap. symmetry in Hj.
      by apply suffixed_ne in Hj.
    - apply NoDup_fmap_2_strong; [|apply NoDup_seq].
      intros i j _ _ Hij%suffixed_inj. lia. }
  assert (list_to_set l ⊆ dom occ) as Hsub.
  { intros x [->|(j & -> & Hj%elem_of_seq)%list_elem_of_fmap]%elem_of_list_to_set%elem_of_cons;
      apply elem_of_dom; [by eexists|]. apply (Hcnt b n Hb). lia. }
  apply subseteq_size in Hsub.
  rewrite size_list_to_set, size_dom in Hsub by done.
  subst l. simpl in Hsub. rewrite length_fmap, length_seq in Hsub. lia.
Qed.

Section counters.
Context {R : Runtime}.

Lemma Slugger_slug_counted (v : list N) (occ : gmap (list N) N) s occ' :
  Slugger_slug v occ = Some (s, occ') → counted occ →
  counted occ' ∧
  (s = slug v ∨ ∃ n, (1 ≤ n)%N ∧ s = suffixed (slug v) n ∧ occ' !! slug v = Some n).
Proof.
  intros Hrun Hcnt. eapply slug_loop_counted; [exact Hrun| |by left].
  intros b k Hb j Hj. right. by eapply Hcnt.
Qed.

Lemma run_counted (vs : list (list N)) : ∀ (occ : gmap (list N) N) ss occ',
  mapM Slugger_slug vs occ = Some (ss, occ') → counted occ → counted occ'.
Proof.
  induction vs as [|v vs IH]; intros occ ss occ' Hrun Hcnt; simpl in Hrun.
  { by injection Hrun as _ <-. }
  unfold bind in Hrun. destruct (Slugger_slug v occ) as [[s occ1]|] eqn:Hs; [|done].
  destruct (mapM Slugger_slug vs occ1) as [[ss1 occ2]|] eqn:Hr; [|done].
  injection Hrun as _ <-. eapply IH; [exact Hr|].
  by apply (Slugger_slug_counted _ _ _ _ Hs).
Qed.
End counters.

(** X6. The number in a suffix never exceeds the number of headings that
    come before: the heading at position [i] (from 0) is assigned its base
    slug or the base slug followed by [-n] with [n] between 1 and [i]. *)
Theorem X6_suffix_at_most_position (R : Runtime) (tree : node) (i : nat)
    (text : list N) :
  heading_texts tree !! i = Some text →
  ∃ tree' ss s,
    remarkAsciiSlugs () tree = Some tree' ∧
    assigned tree' = Some <$> ss ∧
    ss !! i = Some s ∧
    (s = slug (stripDiacritics text) ∨
     ∃ n, (1 ≤ n ≤ N.of_nat i)%N ∧ s = suffixed (slug (stripDiacritics text)) n).
Proof.
  intros Htext.
  destruct (remarkAsciiSlugs_correct tree)
    as (tree' & ss & occ' & Hrun & Hss & _ & Hids & _).
  assert (slugger_inputs tree !! i = Some (stripDiacritics text)) as Hin.
  { unfold slugger_inputs. by rewrite list_lookup_fmap, Htext. }
  destruct (mapM_lookup _ _ _ _ _ _ _ Hss Hin)
    as (occ1 & occ2 & s & Hpre & Hcall & Hs).
  exists tree', ss, s. repeat (split; [done|]).
  assert (counted occ1) as Hcnt1.
  { eapply run_counted; [exact Hpre|]. intros b k Hb.
    unfold new_Slugger in Hb. by rewrite lookup_empty in Hb. }
  destruct (Slugger_slug_counted _ _ _ _ Hcall Hcnt1) as [Hcnt2 [->|(n & Hn & -> & Hb)]];
    [by left|right].
  exists n. split; [|done]. split; [done|].
  pose proof (counted_bound _ _ _ Hcnt2 Hb) as Hlt.
  apply run_keys in Hpre as (Hnd & _ & Hdom1).
  apply Slugger_slug_sound in Hcall as (Hnew & Hdom2 & _).
  assert (size occ2 = S i) as Hsize.
  { rewrite <- size_dom, Hdom2, size_union, size_singleton, size_dom.
    - f_equal. rewrite <- size_dom, Hdom1. unfold new_Slugger.
      rewrite dom_empty_L, (right_id_L ∅ (∪)), size_list_to_set by done.
      rewrite length_take. apply lookup_lt_Some in Hs. lia.
    - apply not_elem_of_dom in Hnew. set_solver. }
  lia.
Qed.

(** The third heading of "Passo", "Passo", "Passo 1": suffix 1, position 2. *)
Lemma X6_suffix_at_most_position_witness :
  heading_texts (document ["Passo"; "Passo"; "Passo 1"]) !! 2
    = Some (utf16 "Passo 1") ∧
  ∃ tree' ss s,
    remarkAsciiSlugs (R := latin1) () (document ["Passo"; "Passo"; "Passo 1"])
      = Some tree' ∧
    assigned tree' = Some <$> ss ∧
    ss !! 2 = Some s ∧
    (s = utf16 "passo-1" ∨
     ∃ n, (1 ≤ n ≤ N.of_nat 2)%N ∧ s = suffixed (utf16 "passo-1") n).
Proof.
  split; [reflexivity|].
  apply (X6_suffix_at_most_position latin1
           (document ["Passo"; "Passo"; "Passo 1"]) 2 (utf16 "Passo 1")).
  reflexivity.
Defined.

(** ** Characters of a slug *)

Lemma slug_no_space {R : Runtime} (v : list N) : SPACE ∉ slug v.
Proof.
  unfold slug, replace_spaces. intros (c & Hc & _)%list_elem_of_fmap.
  by destruct (decide (c = SPACE)).
Qed.

Lemma suffixed_no_space (b : list N) (n : N) :
  SPACE ∉ b → SPACE ∉ suffixed b n.
Proof.
  intros Hb. unfold suffixed.
  intros [?|[?|Hd]%elem_of_cons]%elem_of_app; [done|done|].
  pose proof (toString_is_digit n) as Hall. rewrite Forall_forall in Hall.
  by apply Hall in Hd.
Qed.

(** X7. No slug contains a space, with or without a counter suffix. *)
Theorem X7_no_space_in_slugs (R : Runtime) (tree : node) :
  ∃ tree' ss,
    remarkAsciiSlugs () tree = Some tree' ∧
    assigned tree' = Some <$> ss ∧
    Forall (λ s, SPACE ∉ s) ss.
Proof.
  destruct (remarkAsciiSlugs_correct tree)
    as (tree' & ss & occ' & Hrun & Hss & _ & Hids & _).
  exists tree', ss. split; [done|]. split; [done|].
  apply Forall_lookup. intros i s Hs.
  destruct (lookup_lt_is_Some_2 (slugger_inputs tree) i) as [v Hv].
  { rewrite <- (mapM_length _ _ _ _ _ Hss). by eapply lookup_lt_Some. }
  destruct (run_at _ _ _ _ _ _ Hss Hv Hs) as (_ & _ & _ & [->|(n & _ & ->)]).
  - apply slug_no_space.
  - apply suffixed_no_space, slug_no_space.
Qed.

(** ** The plugin on Latin-1 text *)

(** A property checked on each of the code units U+0000..U+00FF. *)
Lemma latin1_cases (P : N → bool) :
  forallb P (N.of_nat <$> seq 0 256) = true → ∀ c, (c ≤ 255)%N → P c = true.
Proof.
  rewrite forallb_forall. intros Hall c Hc. apply Hall, list_elem_of_In.
  apply list_elem_of_fmap. exists (N.to_nat c). split; [lia|].
  apply elem_of_seq. lia.
Qed.

(** The base slug of a heading text under the Latin-1 runtime. *)
Definition latin1_base (text : list N) : list N :=
  slug (R := latin1) (stripDiacritics (R := latin1) text).

Lemma latin1_strip_app (a b : list N) :
  stripDiacritics (R := latin1) (a ++ b)
    = stripDiacritics (R := latin1) a ++ stripDiacritics (R := latin1) b.
Proof.
  unfold stripDiacritics. simpl. unfold Latin1.nfd.
  by rewrite bind_app, filter_app.
Qed.

Lemma latin1_base_app (a b : list N) :
  latin1_base (a ++ b) = latin1_base a ++ latin1_base b.
Proof.
  unfold latin1_base. rewrite latin1_strip_app. unfold slug, replace_spaces.
  simpl. unfold Latin1.lower, Latin1.remove.
  by rewrite fmap_app, filter_app, fmap_app.
Qed.

Lemma latin1_strip_cons (c : N) (s : list N) :
  stripDiacritics (R := latin1) (c :: s)
    = stripDiacritics (R := latin1) [c] ++ stripDiacritics (R := latin1) s.
Proof. apply (latin1_strip_app [c] s). Qed.

Lemma latin1_base_cons (c : N) (s : list N) :
  latin1_base (c :: s) = latin1_base [c] ++ latin1_base s.
Proof. apply (latin1_base_app [c] s). Qed.

(** The checks made on each code unit. *)
Definition unit_kept (x : N) : bool :=
  (128 <=? x)%N || bool_decide (stripDiacritics (R := latin1) [x] = [x]).

Definition unit_stripped_once (x : N) : bool :=
  bool_decide
    (stripDiacritics (R := latin1) (stripDiacritics (R := latin1) [x])
     = stripDiacritics (R := latin1) [x]).

(** X8. [stripDiacritics] leaves a text of ASCII characters as it is. *)
Theorem X8_stripDiacritics_keeps_ascii (str : list N) :
  Forall (λ c, (c < 128)%N) str →
  stripDiacritics (R := latin1) str = str.
Proof.
  induction 1 as [|c s Hc _ IH]; [done|].
  rewrite latin1_strip_cons, IH.
  cut (stripDiacritics (R := latin1) [c] = [c]); [by intros ->|].
  pose proof (latin1_cases unit_kept ltac:(vm_compute; reflexivity) c
                ltac:(lia)) as Hcase.
  unfold unit_kept in Hcase.
  apply orb_true_iff in Hcase as [Hge%N.leb_le|Heq%bool_decide_eq_true]; [lia|done].
Qed.

Lemma X8_stripDiacritics_keeps_ascii_witness :
  Forall (λ c, (c < 128)%N) (utf16 "Passo 1: git") ∧
  stripDiacritics (R := latin1) (utf16 "Passo 1: git") = utf16 "Passo 1: git".
Proof.
  split; [vm_compute; repeat constructor|].
  apply (X8_stripDiacritics_keeps_ascii (utf16 "Passo 1: git")).
  vm_compute; repeat constructor.
Defined.

(** X9. On Latin-1 text [stripDiacritics] is idempotent: what it returns
    has nothing left to strip. *)
Theorem X9_stripDiacritics_idempotent (str : list N) :
  Forall (λ c, (c ≤ 255)%N) str →
  stripDiacritics (R := latin1) (stripDiacritics (R := latin1) str)
    = stripDiacritics (R := latin1) str.
Proof.
  induction 1 as [|c s Hc _ IH]; [done|].
  rewrite latin1_strip_cons, latin1_strip_app, IH. f_equal.
  pose proof (latin1_cases unit_stripped_once ltac:(vm_compute; reflexivity)
                c Hc) as Hcase.
  by apply bool_decide_eq_true in Hcase.
Qed.

Lemma X9_stripDiacritics_idempotent_witness :
  Forall (λ c, (c ≤ 255)%N) (utf16 "Seção") ∧
  stripDiacritics (R := latin1) (stripDiacritics (R := latin1) (utf16 "Seção"))
    = stripDiacritics (R := latin1) (utf16 "Seção").
Proof.
  split; [vm_compute; repeat constructor; discriminate|].
  apply (X9_stripDiacritics_idempotent (utf16 "Seção")).
  vm_compute; repeat constructor; discriminate.
Defined.

(** Letters and digits of Latin-1: the ASCII ones, the ordinal indicators,
    the micro sign, and U+00C0..U+00FF but the two arithmetic signs. *)
Definition letter_or_digit (c : N) : bool :=
  is_digit c
  || ((65 <=? c)%N && (c <=? 90)%N)
  || ((97 <=? c)%N && (c <=? 122)%N)
  || (c =? 170)%N || (c =? 181)%N || (c =? 186)%N
  || ((192 <=? c)%N && (c <=? 255)%N && negb (c =? 215)%N && negb (c =? 247)%N).

(** What an ASCII character of a slug can be: a lower-case letter, a digit,
    a hyphen or an underscore.  Characters outside ASCII are not judged. *)
Definition slug_char (c : N) : bool :=
  is_digit c
  || ((97 <=? c)%N && (c <=? 122)%N)
  || (c =? 45)%N || (c =? 95)%N
  || (128 <=? c)%N.

Definition unit_leaves_char (x : N) : bool :=
  negb (letter_or_digit x)
  || match latin1_base [x] with [] => false | _ :: _ => true end.

Definition unit_slug_chars (x : N) : bool := forallb slug_char (latin1_base [x]).

Definition unit_case_blind (x : N) : bool :=
  bool_decide (latin1_base [Latin1.lower_unit x] = latin1_base [x]).

(** X10. A heading whose Latin-1 text contains a letter or a digit is
    assigned a non-empty slug. *)
Theorem X10_letter_or_digit_gives_slug (tree : node) (i : nat) (text : list N)
    (c : N) :
  heading_texts tree !! i = Some text →
  Forall (λ c, (c ≤ 255)%N) text →
  c ∈ text → letter_or_digit c = true →
  ∃ tree' ss s,
    remarkAsciiSlugs (R := latin1) () tree = Some tree' ∧
    assigned tree' = Some <$> ss ∧
    ss !! i = Some s ∧
    s ≠ [].
Proof.
  intros Htext Hlatin Hc Hletter.
  destruct (@slug_at latin1 tree i text Htext)
    as (tree' & ss & s & Hrun & Hids & Hs & _ & _ & _ & Hform).
  exists tree', ss, s. repeat (split; [done|]).
  destruct Hform as [->|(n & _ & ->)]; [|apply suffixed_nonempty].
  rewrite Forall_forall in Hlatin.
  pose proof (latin1_cases unit_leaves_char ltac:(vm_compute; reflexivity) c
                (Hlatin c Hc)) as Hcase.
  unfold unit_leaves_char in Hcase. rewrite Hletter in Hcase. simpl in Hcase.
  apply list_elem_of_split in Hc as (l1 & l2 & ->).
  change (latin1_base (l1 ++ c :: l2) ≠ []).
  rewrite latin1_base_app, latin1_base_cons.
  destruct (latin1_base [c]); [done|]. by destruct (latin1_base l1).
Qed.

(** The heading "1ª Etapa!". *)
Lemma X10_letter_or_digit_gives_slug_witness :
  heading_texts (document ["1ª Etapa!"]) !! 0 = Some (utf16 "1ª Etapa!") ∧
  Forall (λ c, (c ≤ 255)%N) (utf16 "1ª Etapa!") ∧
  69%N ∈ utf16 "1ª Etapa!" ∧ letter_or_digit 69 = true ∧
  ∃ tree' ss s,
    remarkAsciiSlugs (R := latin1) () (document ["1ª Etapa!"]) = Some tree' ∧
    assigned tree' = Some <$> ss ∧
    ss !! 0 = Some s ∧
    s ≠ [].
Proof.
  split; [reflexivity|].
  split; [vm_compute; repeat constructor; discriminate|].
  split; [vm_compute; set_solver|]. split; [reflexivity|].
  apply (X10_letter_or_digit_gives_slug (document ["1ª Etapa!"]) 0
           (utf16 "1ª Etapa!") 69);
    [reflexivity|vm_compute; repeat constructor; discriminate
    |vm_compute; set_solver|reflexivity].
Defined.

Lemma latin1_base_chars (text : list N) :
  Forall (λ c, (c ≤ 255)%N) text →
  Forall (λ c, slug_char c = true) (latin1_base text).
Proof.
  induction 1 as [|c s Hc _ IH]; [constructor|].
  rewrite latin1_base_cons. apply Forall_app. split; [|done].
  pose proof (latin1_cases unit_slug_chars ltac:(vm_compute; reflexivity) c Hc)
    as Hcase.
  unfold unit_slug_chars in Hcase. rewrite forallb_forall in Hcase.
  apply Forall_forall. intros x Hx%list_elem_of_In. by apply Hcase.
Qed.

(** X11. In the slug of a heading with Latin-1 text, every ASCII character
    is a lower-case letter, a digit, a hyphen or an underscore: no space,
    no capital, no punctuation, no control character. *)
Theorem X11_ascii_characters_of_slug (tree : node) (i : nat) (text : list N) :
  heading_texts tree !! i = Some text →
  Forall (λ c, (c ≤ 255)%N) text →
  ∃ tree' ss s,
    remarkAsciiSlugs (R := latin1) () tree = Some tree' ∧
    assigned tree' = Some <$> ss ∧
    ss !! i = Some s ∧
    Forall (λ c, slug_char c = true) s.
Proof.
  intros Htext Hlatin.
  destruct (@slug_at latin1 tree i text Htext)
    as (tree' & ss & s & Hrun & Hids & Hs & _ & _ & _ & Hform).
  exists tree', ss, s. repeat (split; [done|]).
  pose proof (latin1_base_chars text Hlatin) as Hbase.
  destruct Hform as [->|(n & _ & ->)]; [done|].
  unfold suffixed. apply Forall_app. split; [done|]. constructor; [done|].
  eapply Forall_impl; [apply toString_is_digit|].
  intros c Hc. simpl in Hc. unfold slug_char. by rewrite Hc.
Qed.

(** The heading "Prós & Contras (2ª Parte)". *)
Lemma X11_ascii_characters_of_slug_witness :
  heading_texts (document ["Prós & Contras (2ª Parte)"]) !! 0
    = Some (utf16 "Prós & Contras (2ª Parte)") ∧
  Forall (λ c, (c ≤ 255)%N) (utf16 "Prós & Contras (2ª Parte)") ∧
  ∃ tree' ss s,
    remarkAsciiSlugs (R := latin1) () (document ["Prós & Contras (2ª Parte)"])
      = Some tree' ∧
    assigned tree' = Some <$> ss ∧
    ss !! 0 = Some s ∧
    Forall (λ c, slug_char c = true) s.
Proof.
  split; [reflexivity|].
  split; [vm_compute; repeat constructor; discriminate|].
  apply (X11_ascii_characters_of_slug (document ["Prós & Contras (2ª Parte)"]) 0
           (utf16 "Prós & Contras (2ª Parte)"));
    [reflexivity|vm_compute; repeat constructor; discriminate].
Defined.

Lemma latin1_base_lower (text : list N) :
  Forall (λ c, (c ≤ 255)%N) text →
  latin1_base (Latin1.lower text) = latin1_base text.
Proof.
  induction 1 as [|c s Hc _ IH]; [done|].
  unfold Latin1.lower in *. rewrite fmap_cons.
  rewrite latin1_base_cons, (latin1_base_cons c s), IH. f_equal.
  pose proof (latin1_cases unit_case_blind ltac:(vm_compute; reflexivity) c Hc)
    as Hcase.
  by apply bool_decide_eq_true in Hcase.
Qed.

(** X12. The base slug does not see the case of letters: two Latin-1
    heading texts with the same lower-case form have the same base slug. *)
Theorem X12_base_slug_ignores_case (text1 text2 : list N) :
  Forall (λ c, (c ≤ 255)%N) text1 →
  Forall (λ c, (c ≤ 255)%N) text2 →
  toLowerCase (Runtime := latin1) text1 = toLowerCase (Runtime := latin1) text2 →
  slug (R := latin1) (stripDiacritics (R := latin1) text1)
    = slug (R := latin1) (stripDiacritics (R := latin1) text2).
Proof.
  intros H1 H2 Heq. simpl in Heq.
  change (latin1_base text1 = latin1_base text2).
  by rewrite <- (latin1_base_lower text1), <- (latin1_base_lower text2), Heq.
Qed.

(** "INSTALAÇÃO" and "Instalação". *)
Lemma X12_base_slug_ignores_case_witness :
  Forall (λ c, (c ≤ 255)%N) (utf16 "INSTALAÇÃO") ∧
  Forall (λ c, (c ≤ 255)%N) (utf16 "Instalação") ∧
  toLowerCase (Runtime := latin1) (utf16 "INSTALAÇÃO")
    = toLowerCase (Runtime := latin1) (utf16 "Instalação") ∧
  slug (R := latin1) (stripDiacritics (R := latin1) (utf16 "INSTALAÇÃO"))
    = slug (R := latin1) (stripDiacritics (R := latin1) (utf16 "Instalação")).
Proof.
  split; [vm_compute; repeat constructor; discriminate|].
  split; [vm_compute; repeat constructor; discriminate|].
  split; [reflexivity|].
  apply (X12_base_slug_ignores_case (utf16 "INSTALAÇÃO") (utf16 "Instalação"));
    [vm_compute; repeat constructor; discriminate
    |vm_compute; repeat constructor; discriminate|reflexivity].
Defined.

(** An ASCII character that the table of the slugger deletes: a control
    character, or a punctuation or symbol character other than the hyphen
    and the underscore.  The space, the hyphen, the underscore, the digits
    and the letters are kept by the table ([ascii_removed_spec]). *)
Definition ascii_removed (c : N) : bool := (c <? 128)%N && Latin1.regex_class c.

Definition unit_removed (x : N) : bool :=
  negb (ascii_removed x) || match latin1_base [x] with [] => true | _ :: _ => false end.

Lemma latin1_base_removed (text : list N) :
  Forall (λ c, ascii_removed c = true) text → latin1_base text = [].
Proof.
  induction 1 as [|c s Hc _ IH]; [done|].
  rewrite latin1_base_cons, IH, app_nil_r.
  assert (c ≤ 255)%N as Hle.
  { unfold ascii_removed in Hc. apply andb_true_iff in Hc as [Hc%N.ltb_lt _]. lia. }
  pose proof (latin1_cases unit_removed ltac:(vm_compute; reflexivity) c Hle)
    as Hcase.
  unfold unit_removed in Hcase. rewrite Hc in Hcase. simpl in Hcase.
  by destruct (latin1_base [c]).
Qed.

(** The characters concerned, spelled out. *)
Definition ascii_removed_explicit (c : N) : bool :=
  (c <? 128)%N
  && negb (is_digit c
           || ((65 <=? c)%N && (c <=? 90)%N)
           || ((97 <=? c)%N && (c <=? 122)%N)
           || (c =? 32)%N || (c =? 45)%N || (c =? 95)%N).

Definition unit_removed_explicit (x : N) : bool :=
  eqb (ascii_removed x) (ascii_removed_explicit x).

Lemma ascii_removed_spec (c : N) : ascii_removed c = ascii_removed_explicit c.
Proof.
  destruct (decide (c ≤ 255)%N) as [Hle|Hgt].
  - apply eqb_prop.
    by apply (latin1_cases unit_removed_explicit ltac:(vm_compute; reflexivity)).
  - unfold ascii_removed, ascii_removed_explicit.
    destruct (N.ltb_spec c 128); [lia|done].
Qed.

(** X13. A heading whose text consists only of ASCII characters that the
    slugger deletes (control characters, and punctuation and symbol
    characters other than the hyphen and the underscore; the space is not
    one of them) has the empty base slug, like a heading without text: it
    is assigned the empty string unless an earlier heading of the document
    was.  A hyphen or an underscore stays: the headings "---" and "_" are
    assigned [---] and [_]. *)
Theorem X13_punctuation_only_heading (tree : node) (i : nat) (text : list N) :
  heading_texts tree !! i = Some text →
  Forall (λ c, ascii_removed c = true) text →
  ∃ tree' ss s,
    remarkAsciiSlugs (R := latin1) () tree = Some tree' ∧
    assigned tree' = Some <$> ss ∧
    ss !! i = Some s ∧
    slug (R := latin1) (stripDiacritics (R := latin1) text) = [] ∧
    ([] ∉ take i ss → s = []).
Proof.
  intros Htext Hpunct.
  destruct (@slug_at latin1 tree i text Htext)
    as (tree' & ss & s & Hrun & Hids & Hs & _ & Hfirst & _).
  pose proof (latin1_base_removed text Hpunct) as Hbase.
  unfold latin1_base in Hbase. rewrite Hbase in Hfirst.
  by exists tree', ss, s.
Qed.

(** The hyphen and the underscore are not deleted. *)
Example hyphens_and_underscore_stay :
  ascii_removed 45 = false ∧ ascii_removed 95 = false ∧
  slugs_of latin1 (document ["---"; "_"])
    = Some [Some (utf16 "---"); Some (utf16 "_")].
Proof. repeat split; vm_compute; reflexivity. Qed.

(** The heading "?!" after the heading "Dúvidas". *)
Lemma X13_punctuation_only_heading_witness :
  heading_texts (document ["Dúvidas"; "?!"]) !! 1 = Some (utf16 "?!") ∧
  Forall (λ c, ascii_removed c = true) (utf16 "?!") ∧
  ∃ tree' ss s,
    remarkAsciiSlugs (R := latin1) () (document ["Dúvidas"; "?!"]) = Some tree' ∧
    assigned tree' = Some <$> ss ∧
    ss !! 1 = Some s ∧
    slug (R := latin1) (stripDiacritics (R := latin1) (utf16 "?!")) = [] ∧
    ([] ∉ take 1 ss → s = []).
Proof.
  split; [reflexivity|]. split; [vm_compute; repeat constructor|].
  apply (X13_punctuation_only_heading (document ["Dúvidas"; "?!"]) 1 (utf16 "?!"));
    [reflexivity|vm_compute; repeat constructor].
Defined.
